(** * DPP: a shallow embedding of the Data Pipeline Package (dpp.py)

    The pipeline object of [dpp.py] owns a context dictionary, a list of
    variable names, a dictionary of placeholders and the list of outputs of
    the last step.  Its methods mutate the object in place and may raise.
    They are embedded here as state transformers over a record [DPP] that
    return either a value or the exception raised, together with the state
    reached: an exception does not undo the mutations made before it. *)

From stdpp Require Import gmap strings list fin_maps.

Set Warnings "-clear-no-such-hyp".

Open Scope string_scope.
Open Scope list_scope.
Open Scope nat_scope.

(** ** Values, callables, exceptions *)

(** Python values flowing through the context.  Only the distinction
    between tuples/lists and everything else is observed by the engine
    ([isinstance(result, (tuple, list))]). *)
#[warnings="-register-all"]
Inductive value :=
| VNone
| VInt (z : Z)
| VStr (s : string)
| VTuple (l : list value)
| VList (l : list value).

(** [list(result)] when [result] is a tuple or a list. *)
Definition as_sequence (v : value) : option (list value) :=
  match v with
  | VTuple l | VList l => Some l
  | _ => None
  end.

(** The messages of the [ValueError]s raised by the engine. *)
Inductive value_error :=
| NoPreviousOutputs            (* "PREV used but there is no previous outputs" *)
| ParameterNumberMismatch      (* "the parameter number is not match, ..." *)
| NotTupleOrList               (* "returned value must be tuple or list ..." *)
| VariableConflict (n : string) (* "Variable conflict: n is written in multiple branches" *)
| BadCommonArgs
| BadAllArgs
| BadBranchArgs
| BadSequenceArgs
| BadSelectBranch
| BadSelectExpr
| BadSelectDefault.

Inductive attribute_error :=
| HasNoName                    (* [.name] read on an object that is not a Placeholder *)
| NoAttribute (a : string)     (* "'DPP' object has no attribute 'a'" *)
| NotInContext (a : string).   (* the variable does not exist in the context *)

Inductive exn :=
| NotImplementedError
| ValueError (m : value_error)
| KeyError (k : string)
| AttributeError (m : attribute_error)
| UserException (tag : string).

Inductive result (A : Type) :=
| Ok (a : A)
| Raise (e : exn).
Arguments Ok {A} a.
Arguments Raise {A} e.

(** A user function: called with positional arguments, it returns a value
    or raises.  [fn_name] is Python's [__name__]; it identifies the callee
    in the call log. User functions are assumed not to touch the pipeline. *)
Record Callable := mkCallable {
  fn_name : string;
  fn_call : list value → result value
}.

(** A [select] condition receives the attribute view of the context and its
    result is tested for truth. *)
Record Condition := mkCondition {
  cond_name : string;
  cond_call : gmap string value → result bool
}.

(** ** Placeholders, tokens and expressions *)

(** [Placeholder]: only [name] is ever read by the engine (the back
    reference to the owning pipeline is never consulted). *)
Record Placeholder := mkPlaceholder { name : string }.

(** The objects that occur in input and output lists. *)
Inductive item :=
| IPh (p : Placeholder)
| IAll                          (* the ALL singleton *)
| IPrev                         (* the PREV singleton *)
| IDots                         (* Ellipsis *)
| IOther.                       (* any other object: it has no [name] *)

Definition V (n : string) : item := IPh (mkPlaceholder n).

(** What a caller may pass where inputs or outputs are expected: a single
    object, a list or a tuple. *)
Inductive arg :=
| Bare (i : item)
| PyList (l : list item)
| PyTuple (l : list item).

(** [CompleteExpression]: built by [>>], both [inputs] and [outputs] are
    lists (PartialExpression wraps a non-list into a one-element list). *)
Record CompleteExpression := mkExpr {
  inputs : list item;
  fn : Callable;
  outputs : list item
}.

(** ** The pipeline object *)

Inductive event :=
| FnCall (f : string) (args : list value)
| CondCall (c : string).

Record DPP := mkDPP {
  var_names : list string;
  context : gmap string value;
  placeholders : gmap string Placeholder;
  last_outputs : list item;
  debug_flag : bool;
  in_context : bool;
  (* instrumentation: the user callables invoked so far, oldest first *)
  calls : list event
}.

Definition set_context (c : gmap string value) (s : DPP) : DPP :=
  mkDPP (var_names s) c (placeholders s) (last_outputs s) (debug_flag s) (in_context s) (calls s).
Definition set_placeholders (p : gmap string Placeholder) (s : DPP) : DPP :=
  mkDPP (var_names s) (context s) p (last_outputs s) (debug_flag s) (in_context s) (calls s).
Definition set_last_outputs (l : list item) (s : DPP) : DPP :=
  mkDPP (var_names s) (context s) (placeholders s) l (debug_flag s) (in_context s) (calls s).
Definition set_debug (b : bool) (s : DPP) : DPP :=
  mkDPP (var_names s) (context s) (placeholders s) (last_outputs s) b (in_context s) (calls s).
Definition set_in_context (b : bool) (s : DPP) : DPP :=
  mkDPP (var_names s) (context s) (placeholders s) (last_outputs s) (debug_flag s) b (calls s).
Definition set_calls (l : list event) (s : DPP) : DPP :=
  mkDPP (var_names s) (context s) (placeholders s) (last_outputs s) (debug_flag s) (in_context s) l.
Definition log_event (e : event) (s : DPP) : DPP := set_calls (calls s ++ [e]) s.

(** ** The monad of methods: in-place mutation plus exceptions *)

Definition M (A : Type) : Type := DPP → result A * DPP.

Definition ret {A} (a : A) : M A := λ s, (Ok a, s).
Definition raise {A} (e : exn) : M A := λ s, (Raise e, s).
Definition bind {A B} (m : M A) (k : A → M B) : M B :=
  λ s, match m s with
       | (Ok a, s') => k a s'
       | (Raise e, s') => (Raise e, s')
       end.
Definition modify (f : DPP → DPP) : M unit := λ s, (Ok tt, f s).
Definition gets {A} (f : DPP → A) : M A := λ s, (Ok (f s), s).
Definition lift {A} (r : result A) : M A := λ s, (r, s).

#[global] Instance M_ret : MRet M := @ret.
#[global] Instance M_bind : MBind M := λ A B k m, bind m k.

(** [obj.name] *)
Definition attr_name (i : item) : M string :=
  match i with
  | IPh p => ret (name p)
  | _ => raise (AttributeError HasNoName)
  end.

(** [self.context[k]] *)
Definition context_get (k : string) : M value :=
  λ s, match context s !! k with
       | Some v => (Ok v, s)
       | None => (Raise (KeyError k), s)
       end.

(** [self.placeholders[k]] *)
Definition placeholders_get (k : string) : M Placeholder :=
  λ s, match placeholders s !! k with
       | Some p => (Ok p, s)
       | None => (Raise (KeyError k), s)
       end.

(** Calling [fn] on positional arguments, recorded in the call log. *)
Definition call (f : Callable) (args : list value) : M value :=
  modify (log_event (FnCall (fn_name f) args));; lift (fn_call f args).

(** ** Construction and the [with] block *)

(** The constructor: [initial_data] holds the keyword arguments in the
    order supplied; keyword names are pairwise distinct. *)
Definition __init__ (initial_data : list (string * value)) : DPP :=
  mkDPP initial_data.*1 (list_to_map initial_data) ∅ [] false false [].

(** [__enter__]: one placeholder per name of [var_names]. (The injection
    of the placeholders into the caller's name space is not modelled.) *)
Definition __enter__ : M unit :=
  modify (set_in_context true);;
  modify (λ s, set_placeholders
                 (foldl (λ ps n, <[n := mkPlaceholder n]> ps) (placeholders s) (var_names s)) s).

Definition __exit__ : M unit := modify (set_in_context false).

(** ** Resolution *)

Definition _convert_to_placeholder_list (obj : arg) : list item :=
  match obj with
  | PyList l | PyTuple l => l
  | Bare i => [i]
  end.

(** [[self.placeholders[name] for name in self.var_names]] *)
Fixpoint lookup_placeholders (names : list string) : M (list item) :=
  match names with
  | [] => ret []
  | n :: rest =>
      p ← placeholders_get n;
      ps ← lookup_placeholders rest;
      ret (IPh p :: ps)
  end.

Definition resolve_prev : M (list item) :=
  lo ← gets last_outputs;
  match lo with
  | [] => raise (ValueError NoPreviousOutputs)
  | _ => ret lo
  end.

Definition resolve_all : M (list item) :=
  names ← gets var_names;
  lookup_placeholders names.

Definition _resolve_inputs (inp : arg) : M (list item) :=
  match inp with
  | Bare IDots => raise NotImplementedError
  | Bare IPrev | PyList (IPrev :: _) => resolve_prev
  | Bare IAll | PyList (IAll :: _) => resolve_all
  | PyList l => ret l
  | Bare i => ret [i]
  | PyTuple _ => ret [IOther]     (* [inputs] holding the tuple itself *)
  end.

(** Every caller passes a list as [outputs]. *)
Definition _resolve_outputs (outs : list item) (ins : list item) : list item :=
  match outs with
  | IAll :: _ => ins
  | _ => outs
  end.

(** ** The two execution strategies *)

(** Each strategy ends, when the debug flag is set, by printing a trace of
    the step; that output is not modelled.  With the flag off the code of
    the trace is not reached. *)

(** The first loop of [_execute_map]: read, call, collect. *)
Fixpoint map_calls (f : Callable) (ins : list item) : M (list value) :=
  match ins with
  | [] => ret []
  | inp :: rest =>
      n ← attr_name inp;
      input_value ← context_get n;
      r ← call f [input_value];
      rs ← map_calls f rest;
      ret (r :: rs)
  end.

(** One iteration of the write-back loop shared by both strategies. *)
Definition write_one (ph : item) (v : value) : M unit :=
  n ← attr_name ph;
  modify (λ s, set_context (<[n := v]> (context s)) s);;
  ps ← gets placeholders;
  match ps !! n, ph with
  | None, IPh p => modify (set_placeholders (<[n := p]> ps))
  | _, _ => ret tt
  end.

(** [for placeholder, value in zip(outputs, results): ...] *)
Fixpoint write_back (pairs : list (item * value)) : M unit :=
  match pairs with
  | [] => ret tt
  | (ph, v) :: rest => write_one ph v;; write_back rest
  end.

Definition _execute_map (ins : list item) (f : Callable) (outs : list item) : M unit :=
  if negb (length ins =? length outs)%nat then raise (ValueError ParameterNumberMismatch)
  else
    results ← map_calls f ins;
    write_back (zip outs results).

(** [[self.context[inp.name] for inp in inputs]] *)
Fixpoint read_inputs (ins : list item) : M (list value) :=
  match ins with
  | [] => ret []
  | inp :: rest =>
      n ← attr_name inp;
      v ← context_get n;
      vs ← read_inputs rest;
      ret (v :: vs)
  end.

Definition unpack_result (r : value) (outs : list item) : M (list value) :=
  if (length outs =? 1)%nat then ret [r]
  else
    match as_sequence r with
    | None => raise (ValueError NotTupleOrList)
    | Some results =>
        if negb (length results =? length outs)%nat
        then raise (ValueError ParameterNumberMismatch)
        else ret results
    end.

Definition _execute_all (ins : list item) (f : Callable) (outs : list item) : M unit :=
  input_values ← read_inputs ins;
  r ← call f input_values;
  results ← unpack_result r outs;
  write_back (zip outs results).

(** ** Single steps: [common] and [all] *)

(** The positional arguments of [common] and [all]. *)
Inductive call_args :=
| ArgExpr (e : CompleteExpression)
| ArgTriple (inputs_arg : arg) (f : Callable) (outputs_arg : arg)
| ArgOther.

(** The shared head of [common] and [all]: resolved inputs, function and
    resolved outputs, or the [ValueError] given. *)
Definition resolve_args (bad : value_error) (a : call_args)
  : M (list item * Callable * list item) :=
  match a with
  | ArgExpr e =>
      ins ← _resolve_inputs (PyList (inputs e));
      mret (ins, fn e, _resolve_outputs (outputs e) ins)
  | ArgTriple inputs_arg f outputs_arg =>
      ins ← _resolve_inputs (PyList (_convert_to_placeholder_list inputs_arg));
      mret (ins, f, _resolve_outputs (_convert_to_placeholder_list outputs_arg) ins)
  | ArgOther => raise (ValueError bad)
  end.

Definition common (a : call_args) : M unit :=
  '(ins, f, outs) ← resolve_args BadCommonArgs a;
  _execute_map ins f outs;;
  modify (set_last_outputs outs).

Definition all (a : call_args) : M unit :=
  '(ins, f, outs) ← resolve_args BadAllArgs a;
  _execute_all ins f outs;;
  modify (set_last_outputs outs).

(** ** Composition: [branch], [sequence], [select] *)

(** One positional argument of [branch] or [sequence]. *)
Inductive step_arg :=
| StepExpr (e : CompleteExpression)
| StepTriple (inputs_arg : arg) (f : Callable) (outputs_arg : arg)
| StepOther.

Definition step : Type := arg * Callable * arg.

Definition is_expr (a : step_arg) : bool :=
  match a with StepExpr _ => true | _ => false end.
Definition is_triple (a : step_arg) : bool :=
  match a with StepTriple _ _ _ => true | _ => false end.

Definition as_step (a : step_arg) : list step :=
  match a with
  | StepExpr e => [(PyList (inputs e), fn e, PyList (outputs e))]
  | StepTriple i f o => [(i, f, o)]
  | StepOther => []
  end.

(** Either every argument is a CompleteExpression, or every argument is an
    (inputs, fn, outputs) triple. *)
Definition collect_steps (bad : value_error) (args : list step_arg) : M (list step) :=
  if forallb is_expr args then mret (args ≫= as_step)
  else if forallb is_triple args then mret (args ≫= as_step)
  else raise (ValueError bad).

(** Strategy selection of the composition constructs. *)
Definition execute (ins : list item) (f : Callable) (outs : list item) : M unit :=
  if (length ins =? length outs)%nat then _execute_map ins f outs
  else _execute_all ins f outs.

(** The resolution that opens every iteration of [branch] and [sequence]. *)
Definition resolve_step (st : step) : M (list item * list item) :=
  let '(inputs_arg, _, outputs_arg) := st in
  ins ← _resolve_inputs (PyList (_convert_to_placeholder_list inputs_arg));
  mret (ins, _resolve_outputs (_convert_to_placeholder_list outputs_arg) ins).

(** [for out in outputs: if out.name in written_vars: raise ...] *)
Fixpoint check_conflict (written_vars : gset string) (outs : list item) : M unit :=
  match outs with
  | [] => mret tt
  | out :: rest =>
      n ← attr_name out;
      if decide (n ∈ written_vars) then raise (ValueError (VariableConflict n))
      else check_conflict written_vars rest
  end.

(** The loop that records the names written by a branch. *)
Fixpoint mark_written (merge : string) (written_vars : gset string) (outs : list item)
  : M (gset string) :=
  match outs with
  | [] => mret written_vars
  | out :: rest =>
      n ← attr_name out;
      if String.eqb merge "first" && bool_decide (n ∈ written_vars)
      then mark_written merge written_vars rest
      else mark_written merge ({[n]} ∪ written_vars) rest
  end.

(** One iteration of the loop of [branch]; the loop carries
    [written_vars] and [all_outputs]. *)
Definition branch_body (merge : string) (st : step) (acc : gset string * list item)
  : M (gset string * list item) :=
  let '(written_vars, all_outputs) := acc in
  '(ins, outs) ← resolve_step st;
  (if String.eqb merge "error" then check_conflict written_vars outs else mret tt);;
  execute ins st.1.2 outs;;
  written_vars' ← mark_written merge written_vars outs;
  mret (written_vars', all_outputs ++ outs).

Fixpoint branch_loop (merge : string) (branches : list step)
    (acc : gset string * list item) : M (gset string * list item) :=
  match branches with
  | [] => mret acc
  | st :: rest => acc' ← branch_body merge st acc; branch_loop merge rest acc'
  end.

Definition branch (args : list step_arg) (merge : string) : M unit :=
  branches ← collect_steps BadBranchArgs args;
  acc ← branch_loop merge branches (∅, []);
  modify (set_last_outputs acc.2).

(** One iteration of the loop of [sequence]. *)
Definition sequence_step (st : step) : M unit :=
  '(ins, outs) ← resolve_step st;
  execute ins st.1.2 outs;;
  modify (set_last_outputs outs).

Fixpoint sequence_loop (steps : list step) : M unit :=
  match steps with
  | [] => mret tt
  | st :: rest => sequence_step st;; sequence_loop rest
  end.

Definition sequence (args : list step_arg) : M unit :=
  steps ← collect_steps BadSequenceArgs args;
  sequence_loop steps.

(** One positional argument of [select]. *)
Inductive select_arg :=
| SelPair (e : CompleteExpression) (condition : Condition)
| SelPairNotExpr (condition : Condition)   (* a pair whose first component is not an expression *)
| SelNotPair.                              (* not a 2-tuple *)

Inductive default_arg :=
| DefaultNone
| DefaultExpr (e : CompleteExpression)
| DefaultOther.

Definition eval_condition (c : Condition) (ctx : gmap string value) : M bool :=
  modify (log_event (CondCall (cond_name c)));; lift (cond_call c ctx).

(** Resolve and execute the step of an expression, then record its outputs. *)
Definition run_expr (e : CompleteExpression) : M unit :=
  ins ← _resolve_inputs (PyList (inputs e));
  let outs := _resolve_outputs (outputs e) ins in
  execute ins (fn e) outs;;
  modify (set_last_outputs outs).

(** The loop over the branches; the result is the flag [executed]. *)
Fixpoint select_loop (ctx : gmap string value) (branches : list select_arg) : M bool :=
  match branches with
  | [] => mret false
  | SelNotPair :: _ => raise (ValueError BadSelectBranch)
  | SelPairNotExpr _ :: _ => raise (ValueError BadSelectExpr)
  | SelPair e condition :: rest =>
      b ← eval_condition condition ctx;
      if b : bool then run_expr e;; mret true
      else select_loop ctx rest
  end.

Definition select (branches : list select_arg) (default : default_arg) : M unit :=
  ctx ← gets context;
  executed ← select_loop ctx branches;
  if executed : bool then mret tt
  else
    match default with
    | DefaultNone => mret tt
    | DefaultOther => raise (ValueError BadSelectDefault)
    | DefaultExpr e => run_expr e
    end.

Definition debug (enabled : bool) : M unit := modify (set_debug enabled).

(** ** Attribute access *)

Definition reserved_names : list string :=
  ["context"; "placeholders"; "var_names"; "last_outputs"; "common"; "all";
   "branch"; "sequence"; "select"; "debug"].

Definition starts_with_underscore (n : string) : bool :=
  match n with
  | String c _ => Ascii.eqb c (Ascii.ascii_of_nat 95)   (* the underscore *)
  | EmptyString => false
  end.

Definition is_reserved (n : string) : bool :=
  starts_with_underscore n || bool_decide (n ∈ reserved_names).

(** What [__getattr__] hands back: a value outside the [with] block, a
    placeholder inside it. *)
Inductive attribute :=
| AttrValue (v : value)
| AttrPlaceholder (p : Placeholder).

Definition __getattr__ (n : string) : M attribute :=
  if is_reserved n then raise (AttributeError (NoAttribute n))
  else
    inside ← gets in_context;
    if negb inside : bool then
      ctx ← gets context;
      match ctx !! n with
      | Some v => mret (AttrValue v)
      | None => raise (AttributeError (NotInContext n))
      end
    else
      ps ← gets placeholders;
      match ps !! n with
      | Some p => mret (AttrPlaceholder p)
      | None =>
          let p := mkPlaceholder n in
          modify (set_placeholders (<[n := p]> ps));;
          mret (AttrPlaceholder p)
      end.


(** ** Names of resolved lists *)

Definition placeholder_name (i : item) : option string :=
  match i with
  | IPh p => Some (name p)
  | _ => None
  end.

(** The names a list of resolved outputs refers to. *)
Definition output_names (outs : list item) : list string := omap placeholder_name outs.

(** ** Vocabulary of the statements *)

(** The context after the assignments [ctx[n] = v], made in list order. *)
Definition assign_all (pairs : list (string * value)) (ctx : gmap string value)
  : gmap string value :=
  foldl (λ c nv, <[nv.1 := nv.2]> c) ctx pairs.

(** [bound s i v]: [i] is a placeholder and the context of [s] holds [v]
    under its name. *)
Definition bound (s : DPP) (i : item) (v : value) : Prop :=
  ∃ p, i = IPh p ∧ context s !! name p = Some v.

Definition is_placeholder (i : item) : Prop := is_Some (placeholder_name i).

(** [m] relates every state to the state it leaves behind, whether it
    returns or raises. *)
Definition preserves {A} (R : relation DPP) (m : M A) : Prop := ∀ s, R s (m s).2.

Definition is_fn_call (ev : event) : Prop :=
  match ev with
  | FnCall _ _ => True
  | CondCall _ => False
  end.

(** [frame N s s']: going from [s] to [s'], context entries outside [N]
    keep their value, nothing is removed from the context or from the
    registry, the record of the last outputs is untouched and the call log
    is extended by function calls only. *)
Record frame (N : list string) (s s' : DPP) : Prop := mkFrame {
  frame_var_names : var_names s' = var_names s;
  frame_last_outputs : last_outputs s' = last_outputs s;
  frame_in_context : in_context s' = in_context s;
  frame_context : ∀ n, n ∉ N → context s' !! n = context s !! n;
  frame_context_dom : dom (context s) ⊆ dom (context s');
  frame_placeholders : placeholders s ⊆ placeholders s';
  frame_calls : ∃ l, calls s' = calls s ++ l ∧ Forall is_fn_call l
}.

(** The argument of [branch] and [sequence] that passes a step as an
    (inputs, fn, outputs) triple. *)
Definition triple_of (st : step) : step_arg := StepTriple st.1.1 st.1.2 st.2.

(** The condition evaluations logged for a list of well-formed branches. *)
Definition condition_events (branches : list select_arg) : list event :=
  omap (λ b, match b with
             | SelPair _ c => Some (CondCall (cond_name c))
             | _ => None
             end) branches.

(** ** Sample callables and pipelines *)

Definition int_fn (fname : string) (g : Z → Z) : Callable :=
  mkCallable fname (λ args,
    match args with
    | [VInt z] => Ok (VInt (g z))
    | _ => Raise (UserException "TypeError")
    end).

Definition double : Callable := int_fn "double" (λ z, 2 * z)%Z.
Definition triple : Callable := int_fn "triple" (λ z, 3 * z)%Z.

(** [lambda a, b: (a + b, a * b)] *)
Definition sum_prod : Callable :=
  mkCallable "sum_prod" (λ args,
    match args with
    | [VInt a; VInt b] => Ok (VTuple [VInt (a + b); VInt (a * b)])
    | _ => Raise (UserException "TypeError")
    end).

Definition always (b : bool) : Condition :=
  mkCondition (if b then "yes" else "no") (λ _, Ok b).

(** A pipeline built on [x = 1], inside its [with] block. *)
Definition pipe_x : DPP := (__enter__ (__init__ [("x", VInt 1)])).2.

(** A pipeline built on [a = 1, b = 2], inside its [with] block. *)
Definition pipe_ab : DPP := (__enter__ (__init__ [("a", VInt 1); ("b", VInt 2)])).2.

(** ** The expression syntax *)

(** [PartialExpression]: inputs and function, outputs still to come. *)
Record PartialExpression := mkPartial {
  partial_inputs : list item;
  partial_fn : Callable
}.

(** [x if isinstance(x, list) else [x]]: a list is kept, anything else,
    a tuple included, becomes the only element of a new list. *)
Definition list_or_singleton (x : arg) : list item :=
  match x with
  | PyList l => l
  | Bare i => [i]
  | PyTuple _ => [IOther]
  end.

Definition PartialExpression_init (inputs_arg : arg) (f : Callable) : PartialExpression :=
  mkPartial (list_or_singleton inputs_arg) f.

(** The right operand of [placeholder >> other]. *)
Inductive operand :=
| OpCallable (f : Callable)
| OpNotCallable.

(** [Placeholder.__rshift__]; [None] stands for the TypeError raised on an
    operand that is not callable. *)
Definition Placeholder_rshift (self : Placeholder) (other : operand)
  : option PartialExpression :=
  match other with
  | OpCallable f => Some (PartialExpression_init (PyList [IPh self]) f)
  | OpNotCallable => None
  end.

(** [V(...)]: a PlaceholderList, which is a list. *)
Definition V_list (phs : list item) : arg := PyList phs.

(** [PlaceholderList.__rshift__] *)
Definition PlaceholderList_rshift (self : list item) (f : Callable) : PartialExpression :=
  PartialExpression_init (PyList self) f.

(** [AllPlaceholder.__rshift__] and [PrevPlaceholder.__rshift__] *)
Definition AllPlaceholder_rshift (f : Callable) : PartialExpression :=
  PartialExpression_init (PyList [IAll]) f.
Definition PrevPlaceholder_rshift (f : Callable) : PartialExpression :=
  PartialExpression_init (PyList [IPrev]) f.

(** [PartialExpression.__rshift__] *)
Definition PartialExpression_rshift (self : PartialExpression) (outputs_arg : arg)
  : CompleteExpression :=
  mkExpr (partial_inputs self) (partial_fn self) (list_or_singleton outputs_arg).

Definition create_placeholder (n : string) : Placeholder := mkPlaceholder n.

(** ** Vocabulary of the further statements *)

(** A call of one of the public methods of the pipeline. *)
Inductive method :=
| MCommon (a : call_args)
| MAll (a : call_args)
| MBranch (args : list step_arg) (merge : string)
| MSequence (args : list step_arg)
| MSelect (branches : list select_arg) (default : default_arg).

Definition run (m : method) : M unit :=
  match m with
  | MCommon a => common a
  | MAll a => all a
  | MBranch args merge => branch args merge
  | MSequence args => sequence args
  | MSelect branches default => select branches default
  end.

(** [s'] is [s] up to the call log. *)
Definition only_logs (s s' : DPP) : Prop := ∃ l, s' = set_calls l s.

(** Going from [s] to [s'], [var_names] and the mode are unchanged, no
    context entry is removed, no placeholder is removed or replaced, and
    the call log is extended. *)
Record grows (s s' : DPP) : Prop := mkGrows {
  grows_var_names : var_names s' = var_names s;
  grows_in_context : in_context s' = in_context s;
  grows_context : dom (context s) ⊆ dom (context s');
  grows_placeholders : placeholders s ⊆ placeholders s';
  grows_calls : calls s `prefix_of` calls s'
}.

(** Every placeholder of the pipeline is stored under its own name. *)
Definition keyed (s : DPP) : Prop :=
  ∀ k p, placeholders s !! k = Some p → name p = k.

Definition keeps_keyed (s s' : DPP) : Prop := keyed s → keyed s'.

(** The record of the last outputs is the same in [s] and [s']. *)
Definition same_last (s s' : DPP) : Prop := last_outputs s' = last_outputs s.

(** The output specification does not begin with the ALL token. *)
Definition explicit_outputs (st : step) : Prop :=
  ∀ rest, _convert_to_placeholder_list st.2 ≠ IAll :: rest.

(** * Properties *)

(** ** Running the monad *)

Lemma bind_ok {A B} (m : M A) (k : A → M B) s a s' :
  m s = (Ok a, s') → (m ≫= k) s = k a s'.
Proof. intros E. unfold mbind, M_bind, bind. by rewrite E. Qed.

Lemma bind_raise {A B} (m : M A) (k : A → M B) s e s' :
  m s = (Raise e, s') → (m ≫= k) s = (Raise e, s').
Proof. intros E. unfold mbind, M_bind, bind. by rewrite E. Qed.

Lemma bind_inv_ok {A B} (m : M A) (k : A → M B) s b s2 :
  (m ≫= k) s = (Ok b, s2) → ∃ a s1, m s = (Ok a, s1) ∧ k a s1 = (Ok b, s2).
Proof.
  unfold mbind, M_bind, bind. destruct (m s) as [[a|e] s1]; [eauto | discriminate].
Qed.

Lemma set_calls_id s : set_calls (calls s) s = s.
Proof. by destruct s. Qed.

Lemma set_calls_twice l l' s : set_calls l (set_calls l' s) = set_calls l s.
Proof. done. Qed.

Section preserves.
Context (R : relation DPP) `{!Reflexive R, !Transitive R}.

Lemma preserves_ret {A} (a : A) : preserves R (mret a).
Proof. intros s. simpl. reflexivity. Qed.

Lemma preserves_raise {A} e : preserves R (@raise A e).
Proof. intros s. simpl. reflexivity. Qed.

Lemma preserves_gets {A} (f : DPP → A) : preserves R (gets f).
Proof. intros s. simpl. reflexivity. Qed.

Lemma preserves_lift {A} (r : result A) : preserves R (lift r).
Proof. intros s. simpl. reflexivity. Qed.

Lemma preserves_bind {A B} (m : M A) (k : A → M B) :
  preserves R m → (∀ a, preserves R (k a)) → preserves R (m ≫= k).
Proof.
  intros Hm Hk s. unfold mbind, M_bind, bind.
  specialize (Hm s). destruct (m s) as [[a|e] s1]; simpl in *; [|done].
  etrans; [exact Hm | apply Hk].
Qed.
End preserves.

(** ** The frame of a step *)

Lemma same_calls s s' :
  calls s' = calls s → ∃ l, calls s' = calls s ++ l ∧ Forall is_fn_call l.
Proof. intros ->. exists []. by rewrite app_nil_r. Qed.

#[global] Instance frame_refl N : Reflexive (frame N).
Proof. intros s. split; try done. by apply same_calls. Qed.

#[global] Instance frame_trans N : Transitive (frame N).
Proof.
  intros s1 s2 s3 [V1 L1 I1 C1 D1 P1 (l1 & K1 & F1)] [V2 L2 I2 C2 D2 P2 (l2 & K2 & F2)].
  split; try congruence.
  - intros n Hn. rewrite C2, C1; auto.
  - by etrans.
  - by etrans.
  - exists (l1 ++ l2). split; [|by apply Forall_app].
    by rewrite K2, K1, <- app_assoc.
Qed.

Lemma frame_mono N N' s s' : N ⊆ N' → frame N s s' → frame N' s s'.
Proof. intros HN []. split; auto. Qed.

Lemma preserves_frame_mono {A} N N' (m : M A) :
  N ⊆ N' → preserves (frame N) m → preserves (frame N') m.
Proof. intros HN Hm s. eapply frame_mono; eauto. Qed.

Lemma frame_attr_name N i : preserves (frame N) (attr_name i).
Proof. destruct i; intros s; simpl; reflexivity. Qed.

Lemma frame_context_get N k : preserves (frame N) (context_get k).
Proof. intros s. unfold context_get. destruct (context s !! k); simpl; reflexivity. Qed.

Lemma frame_call N f args : preserves (frame N) (call f args).
Proof.
  intros s. unfold call, mbind, M_bind, bind, modify, lift. simpl.
  split; simpl; auto. exists [FnCall (fn_name f) args]. split; [done|].
  by repeat constructor.
Qed.

Lemma frame_map_calls N f ins : preserves (frame N) (map_calls f ins).
Proof.
  induction ins as [|inp rest IH]; simpl.
  - apply preserves_ret; apply _.
  - apply preserves_bind; [apply _ .. | apply frame_attr_name |]. intros n.
    apply preserves_bind; [apply _ .. | apply frame_context_get |]. intros v.
    apply preserves_bind; [apply _ .. | apply frame_call |]. intros r.
    apply preserves_bind; [apply _ .. | apply IH |]. intros rs.
    apply preserves_ret; apply _.
Qed.

Lemma frame_read_inputs N ins : preserves (frame N) (read_inputs ins).
Proof.
  induction ins as [|inp rest IH]; simpl.
  - apply preserves_ret; apply _.
  - apply preserves_bind; [apply _ .. | apply frame_attr_name |]. intros n.
    apply preserves_bind; [apply _ .. | apply frame_context_get |]. intros v.
    apply preserves_bind; [apply _ .. | apply IH |]. intros rs.
    apply preserves_ret; apply _.
Qed.

Lemma frame_write_one ph v : preserves (frame (output_names [ph])) (write_one ph v).
Proof.
  intros s. destruct ph as [p| | | |]; try (simpl; reflexivity).
  unfold write_one, mbind, M_bind, bind. simpl.
  assert (frame [name p] s (set_context (<[name p := v]> (context s)) s)) as Hc.
  { split; simpl; auto.
    - intros n Hn. apply lookup_insert_ne. set_solver.
    - rewrite dom_insert_L. set_solver.
    - by apply same_calls. }
  destruct (placeholders s !! name p) eqn:E; simpl; [done|].
  etrans; [exact Hc|]. split; simpl; auto.
  - by apply insert_subseteq.
  - by apply same_calls.
Qed.

Lemma frame_write_back outs results :
  preserves (frame (output_names outs)) (write_back (zip outs results)).
Proof.
  revert results. induction outs as [|ph outs IH]; intros [|v results]; simpl;
    try (apply preserves_ret; apply _).
  apply preserves_bind; [apply _ .. | |].
  - eapply preserves_frame_mono; [|apply frame_write_one].
    unfold output_names. simpl. destruct (placeholder_name ph); set_solver.
  - intros _. eapply preserves_frame_mono; [|apply IH].
    unfold output_names. simpl. destruct (placeholder_name ph); set_solver.
Qed.

Lemma frame_execute_map ins f outs :
  preserves (frame (output_names outs)) (_execute_map ins f outs).
Proof.
  unfold _execute_map. destruct (negb _).
  - apply preserves_raise; apply _.
  - apply preserves_bind; [apply _ .. | apply frame_map_calls |].
    intros rs. apply frame_write_back.
Qed.

Lemma frame_unpack_result N r outs : preserves (frame N) (unpack_result r outs).
Proof.
  intros s. unfold unpack_result.
  destruct (_ =? 1); [reflexivity|].
  destruct (as_sequence r); [|reflexivity].
  destruct (negb _); reflexivity.
Qed.

Lemma frame_execute_all ins f outs :
  preserves (frame (output_names outs)) (_execute_all ins f outs).
Proof.
  unfold _execute_all.
  apply preserves_bind; [apply _ .. | apply frame_read_inputs |]. intros vs.
  apply preserves_bind; [apply _ .. | apply frame_call |]. intros r.
  apply preserves_bind; [apply _ .. | apply frame_unpack_result |]. intros rs.
  apply frame_write_back.
Qed.

(** ** Frame of the two strategies *)

(** C9: running either strategy changes no context entry other than those
    named in the resolved outputs, and removes nothing from the context or
    from the registry ([var_names], [placeholders]); this holds whether the
    step returns or raises. *)
Theorem execute_frame (ins outs : list item) (f : Callable) (s s' : DPP) :
  s' = (_execute_map ins f outs s).2 ∨ s' = (_execute_all ins f outs s).2 →
  (∀ n, n ∉ output_names outs → context s' !! n = context s !! n) ∧
  (∀ n, is_Some (context s !! n) → is_Some (context s' !! n)) ∧
  var_names s' = var_names s ∧
  (∀ n p, placeholders s !! n = Some p → placeholders s' !! n = Some p).
Proof.
  intros Hs'.
  assert (frame (output_names outs) s s') as [Hv _ _ Hc Hd Hp _].
  { destruct Hs' as [-> | ->]; [apply frame_execute_map | apply frame_execute_all]. }
  split_and!; auto.
  - intros n Hn. apply elem_of_dom, Hd, elem_of_dom, Hn.
  - intros n p Hn. eapply lookup_weaken; eauto.
Qed.

Lemma execute_frame_witness :
  let s' := (_execute_map [V "a"; V "b"] double [V "c"; V "a"] pipe_ab).2 in
  (∀ n, n ∉ output_names [V "c"; V "a"] → context s' !! n = context pipe_ab !! n) ∧
  (∀ n, is_Some (context pipe_ab !! n) → is_Some (context s' !! n)) ∧
  var_names s' = var_names pipe_ab ∧
  (∀ n p, placeholders pipe_ab !! n = Some p → placeholders s' !! n = Some p).
Proof.
  intros s'. apply (execute_frame [V "a"; V "b"] [V "c"; V "a"] double pipe_ab s').
  left. reflexivity.
Defined.

(** ** Resolution of inputs *)

Lemma resolve_prev_spec (s : DPP) :
  resolve_prev s =
  (match last_outputs s with
   | [] => Raise (ValueError NoPreviousOutputs)
   | _ => Ok (last_outputs s)
   end, s).
Proof. unfold resolve_prev, mbind, M_bind, bind, gets. by destruct (last_outputs s). Qed.

(** C10: a list whose first element is PREV or ALL resolves to what the
    token alone resolves to (the record of the last outputs, or the
    placeholders of [var_names]), whatever follows it in the list; a list
    whose first element is neither is returned as it is, so that a PREV or
    ALL token further down the list is still there, at the same position,
    in the list returned. *)
Theorem resolve_inputs_leading_token (first : item) (rest : list item) (s : DPP) :
  (first = IPrev ∨ first = IAll →
     _resolve_inputs (PyList (first :: rest)) s = _resolve_inputs (Bare first) s) ∧
  _resolve_inputs (Bare IPrev) s =
    (match last_outputs s with
     | [] => Raise (ValueError NoPreviousOutputs)
     | _ => Ok (last_outputs s)
     end, s) ∧
  _resolve_inputs (Bare IAll) s = lookup_placeholders (var_names s) s ∧
  (first ≠ IPrev → first ≠ IAll →
     _resolve_inputs (PyList (first :: rest)) s = (Ok (first :: rest), s) ∧
     ∀ k tok, tok = IPrev ∨ tok = IAll → rest !! k = Some tok →
       ∃ l, (_resolve_inputs (PyList (first :: rest)) s).1 = Ok l ∧ l !! S k = Some tok).
Proof.
  split_and!.
  - by intros [-> | ->].
  - apply resolve_prev_spec.
  - done.
  - intros Hp Ha.
    assert (_resolve_inputs (PyList (first :: rest)) s = (Ok (first :: rest), s)) as E
      by (destruct first; done).
    split; [done|]. intros k tok _ Hk. rewrite E. eauto.
Qed.

Lemma resolve_inputs_leading_token_witness :
  _resolve_inputs (PyList [IPrev; V "x"; IAll]) pipe_x = _resolve_inputs (Bare IPrev) pipe_x ∧
  _resolve_inputs (PyList [IAll; V "q"; IPrev]) pipe_x = _resolve_inputs (Bare IAll) pipe_x ∧
  _resolve_inputs (PyList [V "x"; IPrev; IAll]) pipe_x = (Ok [V "x"; IPrev; IAll], pipe_x) ∧
  ∃ l, (_resolve_inputs (PyList [V "x"; IPrev; IAll]) pipe_x).1 = Ok l ∧ l !! 2 = Some IAll.
Proof.
  split_and!.
  - exact (proj1 (resolve_inputs_leading_token IPrev [V "x"; IAll] pipe_x)
             (or_introl eq_refl)).
  - exact (proj1 (resolve_inputs_leading_token IAll [V "q"; IPrev] pipe_x)
             (or_intror eq_refl)).
  - destruct (resolve_inputs_leading_token (V "x") [IPrev; IAll] pipe_x) as (_ & _ & _ & H).
    apply H; discriminate.
  - destruct (resolve_inputs_leading_token (V "x") [IPrev; IAll] pipe_x) as (_ & _ & _ & H).
    destruct H as [_ H]; [discriminate | discriminate |].
    apply (H 1 IAll); [by right | reflexivity].
Defined.

(** ** Reading a variable *)

(** The claim of C8 fails on a name that starts with an underscore:
    [_x] is an initial binding, bound in the context, and reading it
    outside the [with] block raises. *)
Lemma getattr_underscore_counterexample :
  let s := __init__ [("_x", VInt 1)] in
  in_context s = false ∧
  "_x" ∈ var_names s ∧
  context s !! "_x" = Some (VInt 1) ∧
  __getattr__ "_x" s = (Raise (AttributeError (NoAttribute "_x")), s).
Proof.
  simpl. split_and!; try reflexivity. apply list_elem_of_here.
Qed.

(** C8, amended: outside the [with] block, for a name that neither starts
    with an underscore nor is one of the pipeline's own attribute names,
    [__getattr__] returns the value the context holds for the name and
    raises the not-found error exactly when the context has no entry for
    it; the pipeline is left as it was. *)
Theorem getattr_outside_with (n : string) (s : DPP) :
  in_context s = false → is_reserved n = false →
  (∀ v, context s !! n = Some v ↔ __getattr__ n s = (Ok (AttrValue v), s)) ∧
  (context s !! n = None ↔
     __getattr__ n s = (Raise (AttributeError (NotInContext n)), s)) ∧
  (__getattr__ n s).2 = s.
Proof.
  intros Hin Hres. unfold __getattr__, mbind, M_bind, bind, gets. rewrite Hres, Hin. simpl.
  destruct (context s !! n) as [v|] eqn:E; simpl; split_and!; try done.
  intros v'. split; [by intros [= ->] | by intros [= ->]].
Qed.

Lemma getattr_outside_with_witness :
  let s := (__exit__ (common (ArgTriple (Bare (V "x")) double (Bare (V "y"))) pipe_x).2).2 in
  (∀ v, context s !! "y" = Some v ↔ __getattr__ "y" s = (Ok (AttrValue v), s)) ∧
  (context s !! "y" = None ↔
     __getattr__ "y" s = (Raise (AttributeError (NotInContext "y")), s)) ∧
  (__getattr__ "y" s).2 = s.
Proof.
  intros s. apply (getattr_outside_with "y" s); reflexivity.
Defined.

(** ** What the loops of the strategies compute *)

Lemma assign_all_cons n v pairs (ctx : gmap string value) :
  assign_all ((n, v) :: pairs) ctx = assign_all pairs (<[n := v]> ctx).
Proof. done. Qed.

Lemma assign_all_notin ns vs (ctx : gmap string value) n :
  n ∉ ns → assign_all (zip ns vs) ctx !! n = ctx !! n.
Proof.
  revert vs ctx. induction ns as [|m ns IH]; intros [|v vs] ctx Hn; try done.
  apply not_elem_of_cons in Hn as [Hne Hn].
  change (zip (m :: ns) (v :: vs)) with ((m, v) :: zip ns vs).
  rewrite assign_all_cons, IH by done. by apply lookup_insert_ne.
Qed.

Lemma assign_all_last ns vs (ctx : gmap string value) k n v :
  ns !! k = Some n → vs !! k = Some v → n ∉ drop (S k) ns →
  assign_all (zip ns vs) ctx !! n = Some v.
Proof.
  revert vs ctx k. induction ns as [|m ns IH]; intros [|w vs] ctx k Hn Hv Hd; try done.
  change (zip (m :: ns) (w :: vs)) with ((m, w) :: zip ns vs).
  rewrite assign_all_cons.
  destruct k as [|k]; simpl in *.
  - injection Hn as ->. injection Hv as ->.
    rewrite assign_all_notin by done. apply lookup_insert_eq.
  - by eapply IH.
Qed.

Lemma map_calls_ok f ins vs rs :
  Forall2 (λ v r, fn_call f [v] = Ok r) vs rs →
  ∀ s, Forall2 (bound s) ins vs →
  map_calls f ins s =
    (Ok rs, set_calls (calls s ++ ((λ v, FnCall (fn_name f) [v]) <$> vs)) s).
Proof.
  intros Hf. revert ins. induction Hf as [|v r vs rs Hr Hf IH]; intros ins s Hb.
  - inversion Hb; subst. simpl. by rewrite app_nil_r, set_calls_id.
  - inversion Hb as [|inp ? ins' ? [p [-> Hp]] Hrest]; subst.
    simpl. unfold mbind, M_bind, bind, context_get, call, modify, lift. simpl.
    rewrite Hp. simpl. rewrite Hr. unfold mbind, M_bind, bind in IH.
    rewrite (IH ins' (log_event (FnCall (fn_name f) [v]) s) Hrest).
    simpl. unfold set_calls. simpl. by rewrite <- app_assoc.
Qed.

Lemma read_inputs_ok ins vs s :
  Forall2 (bound s) ins vs → read_inputs ins s = (Ok vs, s).
Proof.
  induction 1 as [|inp v ins vs [p [-> Hp]] _ IH]; [done|].
  simpl. unfold mbind, M_bind, bind, context_get. simpl. rewrite Hp.
  unfold mbind, M_bind, bind in IH. by rewrite IH.
Qed.

Lemma write_one_ok p v s :
  ∃ s', write_one (IPh p) v s = (Ok tt, s') ∧
        context s' = <[name p := v]> (context s) ∧ calls s' = calls s.
Proof.
  unfold write_one, mbind, M_bind, bind. simpl.
  destruct (placeholders s !! name p); simpl; eauto.
Qed.

Lemma write_back_ok outs rs s :
  Forall is_placeholder outs → length rs = length outs →
  ∃ s', write_back (zip outs rs) s = (Ok tt, s') ∧
        context s' = assign_all (zip (output_names outs) rs) (context s) ∧
        calls s' = calls s.
Proof.
  intros Ho. revert rs s. induction Ho as [|o outs [n Hn] Ho IH]; intros rs s Hl.
  - destruct rs; [|done]. simpl. eauto.
  - destruct rs as [|r rs]; [done|]. injection Hl as Hl.
    destruct o as [p| | | |]; try done. simpl in Hn.
    destruct (write_one_ok p r s) as (s1 & E1 & C1 & K1).
    destruct (IH rs s1 Hl) as (s2 & E2 & C2 & K2).
    exists s2. split_and!.
    + simpl. unfold mbind, M_bind, bind. rewrite E1. exact E2.
    + rewrite C2, C1. reflexivity.
    + congruence.
Qed.

Lemma output_names_length outs :
  Forall is_placeholder outs → length (output_names outs) = length outs.
Proof.
  induction 1 as [|o outs [n Hn] _ IH]; [done|].
  unfold output_names in *. simpl. rewrite Hn. simpl. f_equal. exact IH.
Qed.

(** ** The map strategy *)

(** The claim of C4 fails when an output name is repeated: both calls are
    made, but [y] ends up holding the result for [b], not the result
    [double(1) = 2] computed for the first input [a]. *)
Lemma execute_map_repeated_output_counterexample :
  let r := _execute_map [V "a"; V "b"] double [V "y"; V "y"] pipe_ab in
  r.1 = Ok tt ∧
  calls r.2 = [FnCall "double" [VInt 1]; FnCall "double" [VInt 2]] ∧
  context pipe_ab !! "a" = Some (VInt 1) ∧
  fn_call double [VInt 1] = Ok (VInt 2) ∧
  context r.2 !! "y" = Some (VInt 4) ∧
  context r.2 !! "y" ≠ Some (VInt 2).
Proof. vm_compute. split_and!; done. Qed.

(** C4, amended: when the [n] inputs are bound placeholders, the [n]
    outputs are placeholders and the function returns on each input value,
    the map strategy calls the function [n] times, each time on the single
    value the context held for the input before the step, and afterwards
    [context[outputs[k]]] is the function's result on the value of
    [inputs[k]] before the step, for every [k] whose output name is not
    repeated further down the outputs.  With unequal counts the strategy
    raises the parameter-number error and nothing is called or written. *)
Theorem execute_map_contract :
  (∀ s ins f outs vs rs,
     length ins = length outs →
     Forall2 (bound s) ins vs →
     Forall2 (λ v r, fn_call f [v] = Ok r) vs rs →
     Forall is_placeholder outs →
     ∃ s', _execute_map ins f outs s = (Ok tt, s') ∧
       calls s' = calls s ++ ((λ v, FnCall (fn_name f) [v]) <$> vs) ∧
       length vs = length ins ∧
       ∀ k o, output_names outs !! k = Some o →
         o ∉ drop (S k) (output_names outs) →
         ∃ pi v r, ins !! k = Some (IPh pi) ∧ context s !! name pi = Some v ∧
                   fn_call f [v] = Ok r ∧ context s' !! o = Some r) ∧
  (∀ s ins f outs,
     length ins ≠ length outs →
     _execute_map ins f outs s = (Raise (ValueError ParameterNumberMismatch), s)).
Proof.
  split.
  - intros s ins f outs vs rs Hlen Hb Hf Ho.
    pose proof (Forall2_length _ _ _ Hb) as Lb.
    pose proof (Forall2_length _ _ _ Hf) as Lf.
    set (s1 := set_calls (calls s ++ ((λ v, FnCall (fn_name f) [v]) <$> vs)) s).
    destruct (write_back_ok outs rs s1 Ho) as (s' & E & C & K); [congruence|].
    exists s'. split_and!.
    + unfold _execute_map. rewrite Hlen, Nat.eqb_refl. simpl.
      erewrite bind_ok; [exact E|]. by apply map_calls_ok.
    + by rewrite K.
    + done.
    + intros k o Hk Hd.
      assert (k < length ins) as Hlt.
      { apply lookup_lt_Some in Hk. rewrite output_names_length in Hk by done. lia. }
      destruct (lookup_lt_is_Some_2 ins k Hlt) as [inp Hinp].
      destruct (Forall2_lookup_l _ _ _ _ _ Hb Hinp) as (v & Hv & p & -> & Hp).
      destruct (Forall2_lookup_l _ _ _ _ _ Hf Hv) as (r & Hr & Hfr).
      exists p, v, r. split_and!; try done.
      rewrite C. by eapply assign_all_last.
  - intros s ins f outs Hne. unfold _execute_map.
    apply Nat.eqb_neq in Hne. by rewrite Hne.
Qed.

Lemma execute_map_contract_witness :
  (∃ s', _execute_map [V "a"; V "b"] double [V "c"; V "a"] pipe_ab = (Ok tt, s') ∧
     calls s' = calls pipe_ab ++ [FnCall "double" [VInt 1]; FnCall "double" [VInt 2]] ∧
     context s' !! "c" = Some (VInt 2) ∧ context s' !! "a" = Some (VInt 4)) ∧
  _execute_map [V "a"; V "b"] double [V "c"] pipe_ab
    = (Raise (ValueError ParameterNumberMismatch), pipe_ab).
Proof.
  split.
  - destruct (proj1 execute_map_contract pipe_ab [V "a"; V "b"] double [V "c"; V "a"]
                [VInt 1; VInt 2] [VInt 2; VInt 4]) as (s' & E & K & _ & H).
    + reflexivity.
    + repeat constructor; eexists; (split; [reflexivity | reflexivity]).
    + repeat constructor.
    + repeat constructor; eexists; reflexivity.
    + exists s'. split_and!; [exact E | exact K | |].
      * destruct (H 0 "c") as (pi & v & r & Hi & Hv & Hr & Hc).
        { reflexivity. } { vm_compute. by intros ?%list_elem_of_singleton. }
        injection Hi as <-. vm_compute in Hv. injection Hv as <-.
        vm_compute in Hr. injection Hr as <-. exact Hc.
      * destruct (H 1 "a") as (pi & v & r & Hi & Hv & Hr & Hc).
        { reflexivity. } { vm_compute. apply not_elem_of_nil. }
        injection Hi as <-. vm_compute in Hv. injection Hv as <-.
        vm_compute in Hr. injection Hr as <-. exact Hc.
  - apply (proj2 execute_map_contract). simpl. lia.
Defined.

(** ** The whole-tuple strategy *)

Lemma execute_all_unfold s ins f outs vs r :
  Forall2 (bound s) ins vs → fn_call f vs = Ok r →
  _execute_all ins f outs s =
    (unpack_result r outs ≫= λ results, write_back (zip outs results))
      (set_calls (calls s ++ [FnCall (fn_name f) vs]) s).
Proof.
  intros Hb Hf. unfold _execute_all.
  erewrite bind_ok; [|by apply read_inputs_ok].
  erewrite bind_ok; [done|].
  unfold call, mbind, M_bind, bind, modify, lift. simpl. by rewrite Hf.
Qed.

(** C5: when the inputs are bound placeholders and the function returns
    [r] on their values, the whole-tuple strategy calls it once, on all the
    input values in input order.  With one output, [r] itself is stored
    under that name, sequence or not.  With several outputs, the step
    raises the tuple-or-list error when [r] is no sequence and the
    parameter-number error when its length is not the number of outputs
    (the context is then untouched); otherwise the elements of [r] are
    assigned to the output names in order. *)
Theorem execute_all_contract (s : DPP) (ins : list item) (f : Callable)
    (outs : list item) (vs : list value) (r : value) :
  Forall2 (bound s) ins vs →
  fn_call f vs = Ok r →
  let called := set_calls (calls s ++ [FnCall (fn_name f) vs]) s in
  calls (_execute_all ins f outs s).2 = calls s ++ [FnCall (fn_name f) vs] ∧
  (∀ p, outs = [IPh p] →
     ∃ s', _execute_all ins f outs s = (Ok tt, s') ∧
           context s' = <[name p := r]> (context s)) ∧
  (1 < length outs → as_sequence r = None →
     _execute_all ins f outs s = (Raise (ValueError NotTupleOrList), called)) ∧
  (1 < length outs → ∀ elems, as_sequence r = Some elems →
     length elems ≠ length outs →
     _execute_all ins f outs s = (Raise (ValueError ParameterNumberMismatch), called)) ∧
  (1 < length outs → ∀ elems, as_sequence r = Some elems →
     length elems = length outs → Forall is_placeholder outs →
     ∃ s', _execute_all ins f outs s = (Ok tt, s') ∧
           context s' = assign_all (zip (output_names outs) elems) (context s)).
Proof.
  intros Hb Hf called. rewrite (execute_all_unfold s ins f outs vs r Hb Hf). fold called.
  split_and!.
  - pose proof (frame_unpack_result [] r outs called) as [_ _ _ _ _ _ K1].
    unfold mbind, M_bind, bind.
    destruct (unpack_result r outs called) as [[results|e] s1] eqn:E; simpl in *.
    + assert (s1 = called) as ->.
      { revert E. unfold unpack_result. destruct (_ =? 1); [by intros [= _ <-]|].
        destruct (as_sequence r); [|done]. destruct (negb _); [done|]. by intros [= _ <-]. }
      clear K1.
      assert (calls (write_back (zip outs results) called).2 = calls called) as ->; [|done].
      clear E. generalize called. revert results.
      induction outs as [|o outs IH]; intros [|v results] s1; try done. simpl.
      unfold mbind, M_bind, bind.
      destruct o as [p| | | |]; try done.
      destruct (write_one_ok p v s1) as (s2 & -> & _ & <-). apply IH.
    + assert (s1 = called) as ->; [|done].
      revert E. unfold unpack_result. destruct (_ =? 1); [done|].
      destruct (as_sequence r); [|by intros [= _ <-]].
      destruct (negb _); [by intros [= _ <-]|done].
  - intros p ->. unfold unpack_result. simpl.
    destruct (write_one_ok p r called) as (s' & E & C & _).
    exists s'. split; [|done].
    unfold mbind, M_bind, bind. simpl. unfold mbind, M_bind, bind. by rewrite E.
  - intros Hl Hr. unfold unpack_result, mbind, M_bind, bind.
    destruct (Nat.eqb_spec (length outs) 1); [lia|]. by rewrite Hr.
  - intros Hl elems Hr Hne. unfold unpack_result, mbind, M_bind, bind.
    destruct (Nat.eqb_spec (length outs) 1); [lia|]. rewrite Hr.
    apply Nat.eqb_neq in Hne. by rewrite Hne.
  - intros Hl elems Hr He Ho.
    destruct (write_back_ok outs elems called Ho He) as (s' & E & C & _).
    exists s'. split; [|done].
    unfold unpack_result, mbind, M_bind, bind.
    destruct (Nat.eqb_spec (length outs) 1); [lia|]. rewrite Hr.
    rewrite He, Nat.eqb_refl. simpl. exact E.
Qed.

Lemma execute_all_contract_witness :
  calls (_execute_all [V "a"; V "b"] sum_prod [V "sum"; V "prod"] pipe_ab).2
    = calls pipe_ab ++ [FnCall "sum_prod" [VInt 1; VInt 2]] ∧
  (∃ s', _execute_all [V "a"; V "b"] sum_prod [V "sum"; V "prod"] pipe_ab = (Ok tt, s') ∧
         context s' = assign_all [("sum", VInt 3); ("prod", VInt 2)] (context pipe_ab)).
Proof.
  assert (Forall2 (bound pipe_ab) [V "a"; V "b"] [VInt 1; VInt 2]) as Hb
    by (repeat constructor; eexists; (split; reflexivity)).
  destruct (execute_all_contract pipe_ab [V "a"; V "b"] sum_prod [V "sum"; V "prod"]
              [VInt 1; VInt 2] (VTuple [VInt 3; VInt 2]) Hb eq_refl)
    as (K & _ & _ & _ & H).
  split; [exact K|].
  apply (H ltac:(simpl; lia) [VInt 3; VInt 2] eq_refl eq_refl).
  repeat constructor; eexists; reflexivity.
Defined.

(** ** The ALL token after a step has introduced a variable *)

(** C1 fails on the code: after [common(x, double, y)] on a pipeline
    built on [x], the variable [y] is in the context and has a placeholder,
    but [var_names] is still the list of initial names and ALL resolves to
    [x] alone. *)
Theorem resolve_all_omits_step_outputs :
  let s := (common (ArgTriple (Bare (V "x")) double (Bare (V "y"))) pipe_x).2 in
  (common (ArgTriple (Bare (V "x")) double (Bare (V "y"))) pipe_x).1 = Ok tt ∧
  context s !! "y" = Some (VInt 2) ∧
  placeholders s !! "y" = Some (mkPlaceholder "y") ∧
  var_names s = ["x"] ∧
  _resolve_inputs (Bare IAll) s = (Ok [V "x"], s) ∧
  _resolve_inputs (PyList [IAll]) s = (Ok [V "x"], s).
Proof. vm_compute. split_and!; reflexivity. Qed.

(** No strategy ever extends [var_names]: it is fixed at construction. *)
Lemma execute_var_names ins f outs s :
  var_names (_execute_map ins f outs s).2 = var_names s ∧
  var_names (_execute_all ins f outs s).2 = var_names s.
Proof.
  split; [apply (frame_execute_map ins f outs s) | apply (frame_execute_all ins f outs s)].
Qed.

(** ** Merge policies of [branch] *)

(** C2 fails on the code: under the policy [first], with two branches
    writing [y], both functions are called and [y] ends up holding the
    value of the second branch, [triple(1) = 3], not the value
    [double(1) = 2] of the first. *)
Theorem branch_first_overwrites :
  let b1 := StepTriple (Bare (V "x")) double (Bare (V "y")) in
  let b2 := StepTriple (Bare (V "x")) triple (Bare (V "y")) in
  let r := branch [b1; b2] "first" pipe_x in
  r.1 = Ok tt ∧
  calls r.2 = [FnCall "double" [VInt 1]; FnCall "triple" [VInt 1]] ∧
  fn_call double [VInt 1] = Ok (VInt 2) ∧
  fn_call triple [VInt 1] = Ok (VInt 3) ∧
  context r.2 !! "y" = Some (VInt 3).
Proof. vm_compute. split_and!; reflexivity. Qed.

Lemma mark_written_first_last W outs s :
  mark_written "first" W outs s = mark_written "last" W outs s.
Proof.
  revert W. induction outs as [|o outs IH]; intros W; [done|].
  simpl. destruct o as [p| | | |]; try done.
  unfold mbind, M_bind, bind. simpl.
  case_bool_decide as Hin; simpl; [|apply IH].
  rewrite IH. f_equal. f_equal. set_solver.
Qed.

(** The policy [first] behaves like the policy [last] on every input. *)
Lemma branch_first_as_last args s : branch args "first" s = branch args "last" s.
Proof.
  unfold branch, mbind, M_bind, bind.
  destruct (collect_steps BadBranchArgs args s) as [[branches|e] s1]; [|done].
  assert (∀ acc s, branch_loop "first" branches acc s = branch_loop "last" branches acc s)
    as ->; [|done].
  clear. induction branches as [|st rest IH]; intros acc s'; [done|].
  simpl. unfold mbind, M_bind, bind.
  assert (branch_body "first" st acc s' = branch_body "last" st acc s') as ->.
  { unfold branch_body. destruct acc as [W all_outputs]. unfold mbind, M_bind, bind.
    destruct (resolve_step st s') as [[[ins outs]|e] s2]; [|done]. simpl.
    destruct (execute ins st.1.2 outs s2) as [[[]|e] s3]; [|done].
    by rewrite mark_written_first_last. }
  destruct (branch_body "last" st acc s') as [[acc'|e] s2]; [apply IH | done].
Qed.

(** ** PREV chaining in [sequence] *)

Lemma resolve_inputs_state a s : (_resolve_inputs a s).2 = s.
Proof.
  assert (∀ names, (lookup_placeholders names s).2 = s) as Hl.
  { induction names as [|n names IH]; [done|].
    simpl. unfold mbind, M_bind, bind, placeholders_get.
    destruct (placeholders s !! n); [|done].
    unfold mbind, M_bind, bind in IH.
    destruct (lookup_placeholders names s) as [[ps|e] s1]; simpl in *; congruence. }
  assert ((resolve_prev s).2 = s) as Hp by (by rewrite resolve_prev_spec).
  destruct a as [[]|[|[] l]|l]; simpl; try done; apply Hl.
Qed.

Lemma resolve_step_state st s : (resolve_step st s).2 = s.
Proof.
  destruct st as [[i f] o]. unfold resolve_step, mbind, M_bind, bind.
  pose proof (resolve_inputs_state (PyList (_convert_to_placeholder_list i)) s) as E.
  destruct (_resolve_inputs _ s) as [[ins|e] s1]; simpl in *; congruence.
Qed.

Lemma resolve_step_ok st s ins outs :
  (resolve_step st s).1 = Ok (ins, outs) → resolve_step st s = (Ok (ins, outs), s).
Proof.
  intros E. pose proof (resolve_step_state st s) as E'.
  destruct (resolve_step st s); simpl in *; congruence.
Qed.

Lemma frame_execute ins f outs : preserves (frame (output_names outs)) (execute ins f outs).
Proof.
  unfold execute. destruct (_ =? _); [apply frame_execute_map | apply frame_execute_all].
Qed.

Lemma collect_steps_triples bad (steps : list step) s :
  collect_steps bad (triple_of <$> steps) s = (Ok steps, s).
Proof.
  assert ((triple_of <$> steps) ≫= as_step = steps) as E.
  { induction steps as [|[[i f] o] steps IH]; [done|]. simpl. f_equal. exact IH. }
  unfold collect_steps. destruct (forallb is_expr _); [by rewrite E|].
  assert (forallb is_triple (triple_of <$> steps) = true) as ->; [|by rewrite E].
  clear. by induction steps.
Qed.

Lemma sequence_step_last st s s1 ins outs :
  (resolve_step st s).1 = Ok (ins, outs) →
  sequence_step st s = (Ok tt, s1) →
  last_outputs s1 = outs.
Proof.
  intros Hr%resolve_step_ok. unfold sequence_step, mbind, M_bind, bind. rewrite Hr.
  destruct (execute ins st.1.2 outs s) as [[[]|e] s2]; [|done]. by intros [= <-].
Qed.

Lemma resolve_step_prev (i o : arg) (g : Callable) rest s :
  _convert_to_placeholder_list i = IPrev :: rest →
  resolve_step (i, g, o) s =
    (match last_outputs s with
     | [] => Raise (ValueError NoPreviousOutputs)
     | lo => Ok (lo, _resolve_outputs (_convert_to_placeholder_list o) lo)
     end, s).
Proof.
  intros Hi. unfold resolve_step. rewrite Hi. unfold mbind, M_bind, bind. simpl.
  rewrite resolve_prev_spec. by destruct (last_outputs s).
Qed.

(** The claim of C6 fails when the first step has no outputs: the step
    runs, its resolved outputs are the empty list, and the PREV of the
    second step raises instead of resolving to that list. *)
Lemma prev_after_empty_outputs_counterexample :
  let A : step := (PyList [], double, PyList []) in
  let B : step := (Bare IPrev, double, PyList []) in
  (resolve_step A pipe_x).1 = Ok ([], []) ∧
  (sequence_step A pipe_x).1 = Ok tt ∧
  (resolve_step B (sequence_step A pipe_x).2).1 = Raise (ValueError NoPreviousOutputs) ∧
  (sequence [triple_of A; triple_of B] pipe_x).1 = Raise (ValueError NoPreviousOutputs).
Proof. vm_compute. split_and!; reflexivity. Qed.

(** C6, amended: in a sequence of two steps A then B whose input
    specification is PREV, when A runs and its resolved outputs are not
    empty, the inputs B resolves to are exactly the resolved outputs of A,
    in order and whatever their names, and B is executed on them; resolving
    PREV while the record of the last outputs is empty, as it is on a new
    pipeline, raises the no-previous-outputs error. *)
Theorem prev_chaining :
  (∀ (A : step) (g : Callable) (i o : arg) (s s1 : DPP) insA outsA rest,
     (resolve_step A s).1 = Ok (insA, outsA) →
     sequence_step A s = (Ok tt, s1) →
     outsA ≠ [] →
     _convert_to_placeholder_list i = IPrev :: rest →
     let outsB := _resolve_outputs (_convert_to_placeholder_list o) outsA in
     resolve_step (i, g, o) s1 = (Ok (outsA, outsB), s1) ∧
     sequence [triple_of A; triple_of (i, g, o)] s
       = (execute outsA g outsB ;; modify (set_last_outputs outsB)) s1) ∧
  (∀ (g : Callable) (i o : arg) (s : DPP) rest,
     last_outputs s = [] →
     _convert_to_placeholder_list i = IPrev :: rest →
     resolve_step (i, g, o) s = (Raise (ValueError NoPreviousOutputs), s) ∧
     sequence [triple_of (i, g, o)] s = (Raise (ValueError NoPreviousOutputs), s)) ∧
  (∀ initial_data,
     last_outputs (__init__ initial_data) = [] ∧
     last_outputs (__enter__ (__init__ initial_data)).2 = []).
Proof.
  split_and!.
  - intros A g i o s s1 insA outsA rest HrA HA Hne Hi outsB.
    pose proof (sequence_step_last A s s1 insA outsA HrA HA) as Hlast.
    assert (resolve_step (i, g, o) s1 = (Ok (outsA, outsB), s1)) as HrB.
    { rewrite (resolve_step_prev i o g rest s1 Hi), Hlast. by destruct outsA. }
    split; [done|].
    unfold sequence.
    erewrite bind_ok; [|apply (collect_steps_triples _ [A; (i, g, o)])].
    simpl. erewrite bind_ok; [|exact HA].
    unfold sequence_step. unfold mbind at 1 2. unfold M_bind at 1 2. unfold bind at 1 2.
    rewrite HrB. simpl.
    unfold mbind, M_bind, bind.
    destruct (execute outsA g outsB s1) as [[[]|e] s2]; done.
  - intros g i o s rest Hl Hi.
    assert (resolve_step (i, g, o) s = (Raise (ValueError NoPreviousOutputs), s)) as Hr
      by (by rewrite (resolve_step_prev i o g rest s Hi), Hl).
    split; [done|].
    unfold sequence.
    erewrite bind_ok; [|apply (collect_steps_triples _ [(i, g, o)])].
    simpl. unfold sequence_step, mbind, M_bind, bind. by rewrite Hr.
  - done.
Qed.

Lemma prev_chaining_witness :
  let A : step := (PyList [V "a"; V "b"], double, PyList [V "c"; V "d"]) in
  let s1 := (sequence_step A pipe_ab).2 in
  resolve_step (Bare IPrev, triple, Bare IAll) s1
    = (Ok ([V "c"; V "d"], [V "c"; V "d"]), s1) ∧
  sequence [triple_of A; triple_of (Bare IPrev, triple, Bare IAll)] pipe_ab
    = (execute [V "c"; V "d"] triple [V "c"; V "d"] ;;
       modify (set_last_outputs [V "c"; V "d"])) s1 ∧
  resolve_step (Bare IPrev, triple, Bare IAll) pipe_ab
    = (Raise (ValueError NoPreviousOutputs), pipe_ab).
Proof.
  intros A s1.
  destruct (proj1 prev_chaining A triple (Bare IPrev) (Bare IAll) pipe_ab s1
              [V "a"; V "b"] [V "c"; V "d"] []) as [H1 H2];
    [reflexivity | reflexivity | discriminate | reflexivity |].
  split_and!; [exact H1 | exact H2 |].
  apply (proj1 (proj2 prev_chaining) triple (Bare IPrev) (Bare IAll) pipe_ab []);
    reflexivity.
Defined.

(** ** The policy [error] of [branch] *)

Lemma map_calls_length f ins s rs s' :
  map_calls f ins s = (Ok rs, s') → length rs = length ins.
Proof.
  revert s rs s'. induction ins as [|inp ins IH]; intros s rs s'; simpl.
  - by intros [= <- _].
  - intros (n & s1 & _ & H)%bind_inv_ok.
    apply bind_inv_ok in H as (v & s2 & _ & H).
    apply bind_inv_ok in H as (r & s3 & _ & H).
    apply bind_inv_ok in H as (rs' & s4 & Hrs & H).
    injection H as <- _. simpl. f_equal. by eapply IH.
Qed.

Lemma unpack_result_length r outs s rs s' :
  unpack_result r outs s = (Ok rs, s') → length rs = length outs.
Proof.
  unfold unpack_result. destruct (Nat.eqb_spec (length outs) 1) as [E|_].
  - by intros [= <- _].
  - destruct (as_sequence r) as [l|]; [|done].
    destruct (Nat.eqb_spec (length l) (length outs)); [|done]. by intros [= <- _].
Qed.

Lemma write_back_dom outs rs s s' :
  length rs = length outs →
  write_back (zip outs rs) s = (Ok tt, s') →
  ∀ n, n ∈ output_names outs → n ∈ dom (context s').
Proof.
  revert rs s. induction outs as [|o outs IH]; intros [|r rs] s Hl; try done.
  - intros _ n Hn. by apply elem_of_nil in Hn.
  - injection Hl as Hl. simpl.
    intros ([] & s1 & H1 & H2)%bind_inv_ok n Hn.
    destruct o as [p| | | |]; try done.
    destruct (write_one_ok p r s) as (s1' & E & C & _). rewrite E in H1.
    injection H1 as ->.
    unfold output_names in Hn. simpl in Hn. apply elem_of_cons in Hn as [-> | Hn].
    + pose proof (frame_write_back outs rs s1) as [_ _ _ _ Hd _ _].
      rewrite H2 in Hd. simpl in Hd. apply Hd. rewrite C, dom_insert_L. set_solver.
    + by eapply IH.
Qed.

Lemma execute_dom ins f outs s s' :
  execute ins f outs s = (Ok tt, s') →
  ∀ n, n ∈ output_names outs → n ∈ dom (context s').
Proof.
  unfold execute. destruct (Nat.eqb_spec (length ins) (length outs)) as [E|_].
  - unfold _execute_map. rewrite E, Nat.eqb_refl. simpl.
    intros (rs & s1 & H1 & H2)%bind_inv_ok.
    apply map_calls_length in H1. eapply write_back_dom; [|done]. congruence.
  - unfold _execute_all.
    intros (vs & s1 & _ & H)%bind_inv_ok.
    apply bind_inv_ok in H as (r & s2 & _ & H).
    apply bind_inv_ok in H as (rs & s3 & H1 & H2).
    apply unpack_result_length in H1. by eapply write_back_dom.
Qed.

Lemma check_conflict_state W outs s : (check_conflict W outs s).2 = s.
Proof.
  induction outs as [|o outs IH]; [done|].
  simpl. destruct o as [p| | | |]; try done.
  unfold mbind, M_bind, bind. simpl. by destruct (decide _).
Qed.

Lemma check_conflict_raises W outs s n :
  Forall is_placeholder outs → n ∈ output_names outs → n ∈ W →
  ∃ m, m ∈ output_names outs ∧ m ∈ W ∧
       check_conflict W outs s = (Raise (ValueError (VariableConflict m)), s).
Proof.
  induction 1 as [|o outs [k Hk] Ho IH]; intros Hn HW.
  - by apply elem_of_nil in Hn.
  - destruct o as [p| | | |]; try done. simpl in Hk. injection Hk as <-.
    simpl. unfold mbind, M_bind, bind. simpl.
    destruct (decide (name p ∈ W)) as [Hin|Hout].
    + exists (name p). split_and!; [apply list_elem_of_here | done | done].
    + unfold output_names in Hn. simpl in Hn. apply elem_of_cons in Hn as [-> | Hn]; [done|].
      destruct (IH Hn HW) as (m & Hm & HmW & E).
      exists m. split_and!; [by apply list_elem_of_further | done | done].
Qed.

Lemma mark_written_ok merge W outs s W' s' :
  mark_written merge W outs s = (Ok W', s') →
  s' = s ∧ W' = W ∪ list_to_set (output_names outs).
Proof.
  revert W. induction outs as [|o outs IH]; intros W; simpl.
  - intros [= <- <-]. split; [done | set_solver].
  - destruct o as [p| | | |]; try done.
    unfold mbind, M_bind, bind. simpl.
    destruct (_ && _) eqn:Hc; intros [-> ->]%IH; (split; [done|]).
    + apply andb_true_iff in Hc as [_ Hin%bool_decide_eq_true].
      unfold output_names. simpl. set_solver.
    + unfold output_names. simpl. set_solver.
Qed.

Lemma branch_loop_app merge pre post acc s :
  branch_loop merge (pre ++ post) acc s
  = (branch_loop merge pre acc ≫= branch_loop merge post) s.
Proof.
  revert acc s. induction pre as [|st pre IH]; intros acc s; [done|].
  simpl. unfold mbind, M_bind, bind.
  destruct (branch_body merge st acc s) as [[acc'|e] s1]; [|done].
  rewrite IH. done.
Qed.

(** What the loop of [branch] has accumulated: [written_vars] is the set of
    names of [all_outputs], and each of them has an entry in the context. *)
Lemma branch_loop_written merge branches W0 acc0 s W acc s1 :
  branch_loop merge branches (W0, acc0) s = (Ok (W, acc), s1) →
  W0 = list_to_set (output_names acc0) →
  (∀ n, n ∈ output_names acc0 → n ∈ dom (context s)) →
  W = list_to_set (output_names acc) ∧
  (∀ n, n ∈ output_names acc → n ∈ dom (context s1)).
Proof.
  revert W0 acc0 s. induction branches as [|st rest IH]; intros W0 acc0 s; simpl.
  - by intros [= <- <- <-].
  - intros ([W' acc'] & s2 & Hb & Hl)%bind_inv_ok HW Hd.
    unfold branch_body in Hb.
    apply bind_inv_ok in Hb as ([ins outs] & s3 & Hr & Hb).
    pose proof (resolve_step_state st s) as Es. rewrite Hr in Es. simpl in Es. subst s3.
    apply bind_inv_ok in Hb as ([] & s3 & Hc & Hb).
    assert (s3 = s) as ->.
    { destruct (merge =? "error")%string.
      - pose proof (check_conflict_state W0 outs s) as E. by rewrite Hc in E.
      - by injection Hc. }
    apply bind_inv_ok in Hb as ([] & s4 & He & Hb).
    apply bind_inv_ok in Hb as (W2 & s5 & Hm & Hb).
    apply mark_written_ok in Hm as [-> ->]. injection Hb as <- <- <-.
    apply (IH _ _ _ Hl).
    + unfold output_names. rewrite omap_app. set_solver.
    + intros n. unfold output_names. rewrite omap_app. intros [Hn|Hn]%elem_of_app.
      * pose proof (frame_execute ins st.1.2 outs s) as [_ _ _ _ Hdom _ _].
        rewrite He in Hdom. apply Hdom, Hd, Hn.
      * by eapply execute_dom.
Qed.

(** The claim of C3 fails when the inputs of the conflicting branch do not
    resolve: the second branch declares [y], which the first has written,
    but its PREV input finds the record of the last outputs empty (the
    record is only set when [branch] ends) and that error is the one
    raised. *)
Lemma branch_error_prev_counterexample :
  let b1 : step := (Bare (V "x"), double, Bare (V "y")) in
  let b2 : step := (Bare IPrev, triple, Bare (V "y")) in
  let r := branch [triple_of b1; triple_of b2] "error" pipe_x in
  context r.2 !! "y" = Some (VInt 2) ∧
  calls r.2 = [FnCall "double" [VInt 1]] ∧
  r.1 = Raise (ValueError NoPreviousOutputs) ∧
  r.1 ≠ Raise (ValueError (VariableConflict "y")).
Proof. vm_compute. split_and!; done. Qed.

(** C3, amended: under the policy [error], let the branches before [st]
    have run, leaving the pipeline in [s1] with [acc] the concatenation of
    their resolved outputs.  If the specification of [st] resolves in [s1],
    its resolved outputs are placeholders and one of their names is among
    the names of [acc], then [branch] raises the variable-conflict error
    for such a name and ends in [s1] itself: the function of [st] is not
    called, nothing is written for [st], and every name written by the
    earlier branches still has its entry in the context. *)
Theorem branch_error_conflict (pre post : list step) (st : step) (s s1 : DPP)
    (W : gset string) (acc ins outs : list item) (n : string) :
  branch_loop "error" pre (∅, []) s = (Ok (W, acc), s1) →
  (resolve_step st s1).1 = Ok (ins, outs) →
  Forall is_placeholder outs →
  n ∈ output_names outs →
  n ∈ output_names acc →
  ∃ m, m ∈ output_names outs ∧ m ∈ output_names acc ∧
       branch (triple_of <$> (pre ++ st :: post)) "error" s
         = (Raise (ValueError (VariableConflict m)), s1) ∧
       (∀ k, k ∈ output_names acc → is_Some (context s1 !! k)).
Proof.
  intros Hpre Hr%resolve_step_ok Ho Hn Hacc.
  destruct (branch_loop_written _ _ _ _ _ _ _ _ Hpre) as [HW Hdom];
    [done | by intros k ?%elem_of_nil |].
  destruct (check_conflict_raises W outs s1 n Ho Hn) as (m & Hm & HmW & Hc).
  { rewrite HW. by apply elem_of_list_to_set. }
  exists m. split_and!.
  - done.
  - rewrite HW in HmW. by apply elem_of_list_to_set in HmW.
  - unfold branch.
    erewrite bind_ok; [|apply collect_steps_triples].
    apply bind_raise. rewrite branch_loop_app.
    erewrite bind_ok; [|exact Hpre].
    simpl. apply bind_raise. unfold branch_body.
    erewrite bind_ok; [|exact Hr]. simpl.
    apply bind_raise. exact Hc.
  - intros k Hk. by apply elem_of_dom, Hdom.
Qed.

Lemma branch_error_conflict_witness :
  let b1 : step := (Bare (V "x"), double, Bare (V "y")) in
  let b2 : step := (Bare (V "x"), triple, PyList [V "z"; V "y"]) in
  let s1 := (branch_loop "error" [b1] (∅, []) pipe_x).2 in
  ∃ m, m ∈ output_names [V "z"; V "y"] ∧ m ∈ output_names [V "y"] ∧
       branch (triple_of <$> ([b1] ++ b2 :: [b1])) "error" pipe_x
         = (Raise (ValueError (VariableConflict m)), s1) ∧
       (∀ k, k ∈ output_names [V "y"] → is_Some (context s1 !! k)).
Proof.
  intros b1 b2 s1.
  apply (branch_error_conflict [b1] [b1] b2 pipe_x s1 {["y"]} [V "y"]
           [V "x"] [V "z"; V "y"] "y").
  - vm_compute. reflexivity.
  - reflexivity.
  - repeat constructor; eexists; reflexivity.
  - apply list_elem_of_further, list_elem_of_here.
  - apply list_elem_of_here.
Defined.

(** ** Short circuit of [select] *)

Lemma frame_run_expr_calls e s :
  ∃ l, calls (run_expr e s).2 = calls s ++ l ∧ Forall is_fn_call l.
Proof.
  unfold run_expr, mbind, M_bind, bind.
  pose proof (resolve_inputs_state (PyList (inputs e)) s) as Es.
  destruct (_resolve_inputs (PyList (inputs e)) s) as [[ins|err] s1]; simpl in Es; subst s1;
    [|by apply same_calls].
  pose proof (frame_execute ins (fn e) (_resolve_outputs (outputs e) ins) s) as [_ _ _ _ _ _ K].
  destruct (execute ins (fn e) (_resolve_outputs (outputs e) ins) s) as [[[]|err] s1];
    simpl in *; exact K.
Qed.

Lemma select_loop_skip ctx pre rest s :
  Forall (λ b, ∃ e c, b = SelPair e c ∧ cond_call c ctx = Ok false) pre →
  select_loop ctx (pre ++ rest) s
  = select_loop ctx rest (set_calls (calls s ++ condition_events pre) s).
Proof.
  intros Hpre. revert s. induction Hpre as [|b pre (e & c & -> & Hc) _ IH]; intros s.
  - simpl. by rewrite app_nil_r, set_calls_id.
  - simpl. unfold mbind, M_bind, bind, eval_condition, modify, lift. simpl.
    rewrite Hc. unfold mbind, M_bind, bind in IH. rewrite IH.
    unfold log_event. simpl. unfold set_calls at 2. simpl.
    unfold condition_events. simpl. by rewrite <- app_assoc.
Qed.

Lemma select_loop_no_match ctx branches s :
  Forall (λ b, ∀ e c, b = SelPair e c → cond_call c ctx ≠ Ok true) branches →
  ∃ r l, select_loop ctx branches s = (r, set_calls l s) ∧ r ≠ Ok true.
Proof.
  intros Hb. revert s. induction Hb as [|b branches Hc _ IH]; intros s.
  - exists (Ok false), (calls s). by rewrite set_calls_id.
  - destruct b as [e c|c|].
    + simpl. unfold mbind, M_bind, bind, eval_condition, modify, lift. simpl.
      specialize (Hc e c eq_refl).
      destruct (cond_call c ctx) as [[|]|err]; [done| |].
      * destruct (IH (log_event (CondCall (cond_name c)) s)) as (r & l & E & Hr).
        unfold mbind, M_bind, bind in E. rewrite E. by exists r, l.
      * by exists (Raise err), (calls s ++ [CondCall (cond_name c)]).
    + exists (Raise (ValueError BadSelectExpr)), (calls s). by rewrite set_calls_id.
    + exists (Raise (ValueError BadSelectBranch)), (calls s). by rewrite set_calls_id.
Qed.

Lemma run_expr_steps e s :
  run_expr e s
  = (ins ← _resolve_inputs (PyList (inputs e));
     let outs := _resolve_outputs (outputs e) ins in
     (if length ins =? length outs
      then _execute_map ins (fn e) outs
      else _execute_all ins (fn e) outs);;
     modify (set_last_outputs outs)) s.
Proof. reflexivity. Qed.

Lemma resolve_inputs_bound ins vs s :
  Forall2 (bound s) ins vs → _resolve_inputs (PyList ins) s = (Ok ins, s).
Proof. intros [|i v ins' vs' [p [-> _]] _]; done. Qed.

Lemma resolve_outputs_placeholders outs ins :
  Forall is_placeholder outs → _resolve_outputs outs ins = outs.
Proof. intros [|[] ? [? ?] _]; done. Qed.

(** A matched expression with explicit, bound inputs and as many
    placeholder outputs: what running it leaves behind. *)
Lemma run_expr_map_ok e s vs rs :
  Forall2 (bound s) (inputs e) vs →
  Forall2 (λ v r, fn_call (fn e) [v] = Ok r) vs rs →
  Forall is_placeholder (outputs e) →
  length (inputs e) = length (outputs e) →
  ∃ s', run_expr e s = (Ok tt, s') ∧
    calls s' = calls s ++ ((λ v, FnCall (fn_name (fn e)) [v]) <$> vs) ∧
    last_outputs s' = outputs e ∧
    context s' = assign_all (zip (output_names (outputs e)) rs) (context s).
Proof.
  intros Hb Hf Ho Hl.
  pose proof (Forall2_length _ _ _ Hb) as Lb.
  pose proof (Forall2_length _ _ _ Hf) as Lf.
  set (s1 := set_calls (calls s ++ ((λ v, FnCall (fn_name (fn e)) [v]) <$> vs)) s).
  destruct (write_back_ok (outputs e) rs s1 Ho) as (s2 & E & C & K); [congruence|].
  exists (set_last_outputs (outputs e) s2). split_and!; try done.
  unfold run_expr.
  erewrite bind_ok; [|by eapply resolve_inputs_bound].
  rewrite resolve_outputs_placeholders by done.
  erewrite bind_ok; [done|].
  unfold execute, _execute_map. rewrite Hl, Nat.eqb_refl. simpl.
  erewrite bind_ok; [exact E|]. by apply map_calls_ok.
Qed.

(** A matched expression with explicit, bound inputs and a single output,
    the counts being different: the function is called once on all the
    values and what it returns is stored whole. *)
Lemma run_expr_all_ok e s vs r p :
  Forall2 (bound s) (inputs e) vs →
  fn_call (fn e) vs = Ok r →
  outputs e = [IPh p] →
  length (inputs e) ≠ 1 →
  ∃ s', run_expr e s = (Ok tt, s') ∧
    calls s' = calls s ++ [FnCall (fn_name (fn e)) vs] ∧
    last_outputs s' = [IPh p] ∧
    context s' = <[name p := r]> (context s).
Proof.
  intros Hb Hf Ho Hl.
  set (s1 := set_calls (calls s ++ [FnCall (fn_name (fn e)) vs]) s).
  destruct (write_one_ok p r s1) as (s2 & E & C & K).
  exists (set_last_outputs [IPh p] s2). split_and!; try done.
  unfold run_expr.
  erewrite bind_ok; [|by eapply resolve_inputs_bound].
  rewrite Ho. simpl.
  erewrite bind_ok; [done|].
  unfold execute. apply Nat.eqb_neq in Hl. simpl. rewrite Hl.
  rewrite (execute_all_unfold s (inputs e) (fn e) [IPh p] vs r Hb Hf). fold s1.
  unfold unpack_result. simpl.
  unfold mbind, M_bind, bind. simpl. unfold mbind, M_bind, bind. by rewrite E.
Qed.

(** C7: when the conditions of the branches [pre] return false and the
    condition of the next branch returns true, [select] evaluates exactly
    these conditions, in order, and then does with the expression of that
    branch what a single step does: it resolves its inputs and outputs,
    runs the map strategy when the two counts agree and the whole-tuple
    strategy otherwise, and records the outputs as the last outputs.  From
    the matching condition on only function calls are logged, and neither
    the branches [post] behind it nor the default play any part.  In
    particular, with bound inputs and placeholder outputs the function has
    been called on the input values, its results are in the context and
    the outputs are the last outputs.  When no condition returns true and
    there is no default, the context, the registry and the record of the
    last outputs are left as they were. *)
Theorem select_short_circuit :
  (∀ pre e c post default s,
     Forall (λ b, ∃ e' c', b = SelPair e' c' ∧ cond_call c' (context s) = Ok false) pre →
     cond_call c (context s) = Ok true →
     let s1 := set_calls (calls s ++ condition_events pre ++ [CondCall (cond_name c)]) s in
     select (pre ++ SelPair e c :: post) default s
     = (ins ← _resolve_inputs (PyList (inputs e));
        let outs := _resolve_outputs (outputs e) ins in
        (if length ins =? length outs
         then _execute_map ins (fn e) outs
         else _execute_all ins (fn e) outs);;
        modify (set_last_outputs outs)) s1 ∧
     (∃ l, calls (select (pre ++ SelPair e c :: post) default s).2 = calls s1 ++ l ∧
           Forall is_fn_call l) ∧
     (∀ vs rs,
        Forall2 (bound s) (inputs e) vs →
        Forall2 (λ v r, fn_call (fn e) [v] = Ok r) vs rs →
        Forall is_placeholder (outputs e) →
        length (inputs e) = length (outputs e) →
        ∃ s', select (pre ++ SelPair e c :: post) default s = (Ok tt, s') ∧
          calls s' = calls s1 ++ ((λ v, FnCall (fn_name (fn e)) [v]) <$> vs) ∧
          last_outputs s' = outputs e ∧
          context s' = assign_all (zip (output_names (outputs e)) rs) (context s)) ∧
     (∀ vs r p,
        Forall2 (bound s) (inputs e) vs →
        fn_call (fn e) vs = Ok r →
        outputs e = [IPh p] →
        length (inputs e) ≠ 1 →
        ∃ s', select (pre ++ SelPair e c :: post) default s = (Ok tt, s') ∧
          calls s' = calls s1 ++ [FnCall (fn_name (fn e)) vs] ∧
          last_outputs s' = [IPh p] ∧
          context s' = <[name p := r]> (context s))) ∧
  (∀ branches s,
     Forall (λ b, ∀ e c, b = SelPair e c → cond_call c (context s) ≠ Ok true) branches →
     let s' := (select branches DefaultNone s).2 in
     context s' = context s ∧ var_names s' = var_names s ∧
     placeholders s' = placeholders s ∧ last_outputs s' = last_outputs s).
Proof.
  split.
  - intros pre e c post default s Hpre Hc s1.
    assert (select (pre ++ SelPair e c :: post) default s = run_expr e s1) as E.
    { unfold select. unfold mbind at 1. unfold M_bind at 1. unfold bind at 1. simpl.
      unfold mbind at 1. unfold M_bind at 1. unfold bind at 1.
      rewrite (select_loop_skip (context s) pre (SelPair e c :: post) s Hpre).
      simpl. unfold mbind at 1. unfold M_bind at 1. unfold bind at 1.
      unfold eval_condition, modify, lift.
      unfold mbind at 1. unfold M_bind at 1. unfold bind at 1. simpl.
      rewrite Hc.
      unfold mbind at 1. unfold M_bind at 1. unfold bind at 1.
      assert (log_event (CondCall (cond_name c))
                (set_calls (calls s ++ condition_events pre) s) = s1) as ->.
      { unfold log_event, s1. simpl. unfold set_calls. simpl. by rewrite <- app_assoc. }
      by destruct (run_expr e s1) as [[[]|err] s2]. }
    rewrite E. split_and!.
    + apply run_expr_steps.
    + apply frame_run_expr_calls.
    + intros vs rs Hb Hf Ho Hl. by apply (run_expr_map_ok e s1 vs rs).
    + intros vs r p Hb Hf Ho Hl. by apply (run_expr_all_ok e s1 vs r p).
  - intros branches s Hb.
    destruct (select_loop_no_match (context s) branches s Hb) as (r & l & E & Hr).
    unfold select, mbind, M_bind, bind. simpl. rewrite E.
    destruct r as [[|]|err]; done.
Qed.

Lemma select_short_circuit_witness :
  let e1 := mkExpr [V "x"] double [V "y"] in
  let e2 := mkExpr [V "x"] triple [V "y"] in
  let branches := [SelPair e1 (always false); SelPair e2 (always true);
                   SelPair e1 (always true)] in
  (∃ s', select branches (DefaultExpr e1) pipe_x = (Ok tt, s') ∧
     calls s' = [CondCall "no"; CondCall "yes"; FnCall "triple" [VInt 1]] ∧
     last_outputs s' = [V "y"] ∧
     context s' = assign_all [("y", VInt 3)] (context pipe_x)) ∧
  (let s' := (select [SelPair e1 (always false); SelNotPair] DefaultNone pipe_x).2 in
   context s' = context pipe_x ∧ var_names s' = var_names pipe_x ∧
   placeholders s' = placeholders pipe_x ∧ last_outputs s' = last_outputs pipe_x).
Proof.
  intros e1 e2 branches. split.
  - destruct (proj1 select_short_circuit [SelPair e1 (always false)] e2 (always true)
                [SelPair e1 (always true)] (DefaultExpr e1) pipe_x) as (_ & _ & H & _).
    + repeat constructor. by exists e1, (always false).
    + reflexivity.
    + apply (H [VInt 1] [VInt 3]).
      * repeat constructor; eexists; (split; reflexivity).
      * repeat constructor.
      * repeat constructor; eexists; reflexivity.
      * reflexivity.
  - apply (proj2 select_short_circuit [SelPair e1 (always false); SelNotPair] pipe_x).
    repeat constructor; intros e c [= <- <-] || intros e c [=]. simpl. discriminate.
Defined.

(** ** The scenarios of the specification *)

(** [DPP(x=10)], then the map strategy from [x] to [y] with a doubling
    function: [y] reads 20 and [x] still reads 10 once the block is left. *)
Example scenario_map :
  let s := (__exit__ (common (ArgTriple (Bare (V "x")) double (PyTuple [V "y"]))
                        (__enter__ (__init__ [("x", VInt 10)])).2).2).2 in
  (__getattr__ "y" s).1 = Ok (AttrValue (VInt 20)) ∧
  (__getattr__ "x" s).1 = Ok (AttrValue (VInt 10)).
Proof. vm_compute. split; reflexivity. Qed.

(** [DPP(a=2, b=3)], then the whole-tuple strategy from [a, b] to
    [sum, prod]: [sum] reads 5 and [prod] reads 6. *)
Example scenario_all :
  let s := (__exit__ (all (ArgTriple (PyList [V "a"; V "b"]) sum_prod
                             (PyList [V "sum"; V "prod"]))
                        (__enter__ (__init__ [("a", VInt 2); ("b", VInt 3)])).2).2).2 in
  (__getattr__ "sum" s).1 = Ok (AttrValue (VInt 5)) ∧
  (__getattr__ "prod" s).1 = Ok (AttrValue (VInt 6)).
Proof. vm_compute. split; reflexivity. Qed.

(** Under the default policy the later branch overwrites the earlier one. *)
Example scenario_branch_last :
  let b1 := StepTriple (Bare (V "x")) double (Bare (V "y")) in
  let b2 := StepTriple (Bare (V "x")) triple (Bare (V "y")) in
  let r := branch [b1; b2] "last" pipe_x in
  r.1 = Ok tt ∧ context r.2 !! "y" = Some (VInt 3) ∧
  last_outputs r.2 = [V "y"; V "y"].
Proof. vm_compute. split_and!; reflexivity. Qed.

(** With one declared output a returned tuple is stored whole. *)
Example scenario_single_output_not_unpacked :
  let r := _execute_all [V "a"; V "b"] sum_prod [V "pair"] pipe_ab in
  r.1 = Ok tt ∧ context r.2 !! "pair" = Some (VTuple [VInt 3; VInt 2]).
Proof. vm_compute. split; reflexivity. Qed.

(** * Further properties of the engine *)

(** ** Steps that only log *)

#[global] Instance only_logs_refl : Reflexive only_logs.
Proof. intros s. exists (calls s). by rewrite set_calls_id. Qed.

#[global] Instance only_logs_trans : Transitive only_logs.
Proof. intros s1 s2 s3 [l1 ->] [l2 ->]. by exists l2. Qed.

Lemma preserves_weaken {A} (R R' : relation DPP) (m : M A) :
  (∀ s s', R s s' → R' s s') → preserves R m → preserves R' m.
Proof. intros HR Hm s. apply HR, Hm. Qed.

Lemma only_logs_attr_name i : preserves only_logs (attr_name i).
Proof. destruct i; intros s; simpl; reflexivity. Qed.

Lemma only_logs_context_get k : preserves only_logs (context_get k).
Proof. intros s. unfold context_get. destruct (context s !! k); simpl; reflexivity. Qed.

Lemma only_logs_call f args : preserves only_logs (call f args).
Proof.
  intros s. unfold call, mbind, M_bind, bind, modify, lift. simpl.
  by exists (calls s ++ [FnCall (fn_name f) args]).
Qed.

Lemma only_logs_map_calls f ins : preserves only_logs (map_calls f ins).
Proof.
  induction ins as [|inp rest IH]; simpl.
  - apply preserves_ret; apply _.
  - apply preserves_bind; [apply _ .. | apply only_logs_attr_name |]. intros n.
    apply preserves_bind; [apply _ .. | apply only_logs_context_get |]. intros v.
    apply preserves_bind; [apply _ .. | apply only_logs_call |]. intros r.
    apply preserves_bind; [apply _ .. | apply IH |]. intros rs.
    apply preserves_ret; apply _.
Qed.

Lemma only_logs_read_inputs ins : preserves only_logs (read_inputs ins).
Proof.
  induction ins as [|inp rest IH]; simpl.
  - apply preserves_ret; apply _.
  - apply preserves_bind; [apply _ .. | apply only_logs_attr_name |]. intros n.
    apply preserves_bind; [apply _ .. | apply only_logs_context_get |]. intros v.
    apply preserves_bind; [apply _ .. | apply IH |]. intros rs.
    apply preserves_ret; apply _.
Qed.

Lemma only_logs_unpack_result r outs : preserves only_logs (unpack_result r outs).
Proof.
  intros s. unfold unpack_result.
  destruct (_ =? 1); [reflexivity|].
  destruct (as_sequence r); [|reflexivity].
  destruct (negb _); reflexivity.
Qed.

Lemma only_logs_eq s s' : s' = s → only_logs s s'.
Proof. intros ->. reflexivity. Qed.

Lemma only_logs_resolve_inputs a : preserves only_logs (_resolve_inputs a).
Proof. intros s. apply only_logs_eq, resolve_inputs_state. Qed.

Lemma only_logs_resolve_step st : preserves only_logs (resolve_step st).
Proof. intros s. apply only_logs_eq, resolve_step_state. Qed.

Lemma only_logs_check_conflict W outs : preserves only_logs (check_conflict W outs).
Proof. intros s. apply only_logs_eq, check_conflict_state. Qed.

Lemma mark_written_state merge W outs s : (mark_written merge W outs s).2 = s.
Proof.
  revert W. induction outs as [|o outs IH]; intros W; [done|].
  simpl. destruct o as [p| | | |]; try done.
  unfold mbind, M_bind, bind. simpl. destruct (_ && _); apply IH.
Qed.

Lemma only_logs_mark_written merge W outs : preserves only_logs (mark_written merge W outs).
Proof. intros s. apply only_logs_eq, mark_written_state. Qed.

Lemma only_logs_eval_condition c ctx : preserves only_logs (eval_condition c ctx).
Proof.
  intros s. unfold eval_condition, mbind, M_bind, bind, modify, lift. simpl.
  by exists (calls s ++ [CondCall (cond_name c)]).
Qed.

(** ** Nothing is ever removed *)

#[global] Instance grows_refl : Reflexive grows.
Proof. intros s. by split. Qed.

#[global] Instance grows_trans : Transitive grows.
Proof.
  intros s1 s2 s3 [V1 I1 C1 P1 K1] [V2 I2 C2 P2 K2].
  split; try congruence; by etrans.
Qed.

Lemma frame_grows N s s' : frame N s s' → grows s s'.
Proof.
  intros [Hv _ Hi _ Hc Hp (l & Hl & _)]. split; try done.
  rewrite Hl. by apply prefix_app_r.
Qed.

Lemma only_logs_grows s s' : only_logs s s' → calls s `prefix_of` calls s' → grows s s'.
Proof. intros [l ->] Hl. by split. Qed.

Lemma grows_set_last_outputs l : preserves grows (modify (set_last_outputs l)).
Proof. intros s. by split. Qed.

Lemma grows_resolve_inputs a : preserves grows (_resolve_inputs a).
Proof. intros s. rewrite resolve_inputs_state. reflexivity. Qed.

Lemma grows_resolve_step st : preserves grows (resolve_step st).
Proof. intros s. rewrite resolve_step_state. reflexivity. Qed.

Lemma grows_execute ins f outs : preserves grows (execute ins f outs).
Proof. intros s. eapply frame_grows, frame_execute. Qed.

Lemma grows_resolve_args bad a : preserves grows (resolve_args bad a).
Proof.
  destruct a as [e|i f o|]; unfold resolve_args.
  - apply preserves_bind; [apply _ .. | apply grows_resolve_inputs |].
    intros ins. apply preserves_ret; apply _.
  - apply preserves_bind; [apply _ .. | apply grows_resolve_inputs |].
    intros ins. apply preserves_ret; apply _.
  - apply preserves_raise; apply _.
Qed.

Lemma grows_common a : preserves grows (common a).
Proof.
  unfold common.
  apply preserves_bind; [apply _ .. | apply grows_resolve_args |]. intros [[ins f] outs].
  apply preserves_bind; [apply _ .. | |].
  - intros s. eapply frame_grows, frame_execute_map.
  - intros _. apply grows_set_last_outputs.
Qed.

Lemma grows_all a : preserves grows (all a).
Proof.
  unfold all.
  apply preserves_bind; [apply _ .. | apply grows_resolve_args |]. intros [[ins f] outs].
  apply preserves_bind; [apply _ .. | |].
  - intros s. eapply frame_grows, frame_execute_all.
  - intros _. apply grows_set_last_outputs.
Qed.

Lemma grows_collect_steps bad args : preserves grows (collect_steps bad args).
Proof.
  intros s. unfold collect_steps.
  destruct (forallb is_expr args); [reflexivity|].
  destruct (forallb is_triple args); reflexivity.
Qed.

Lemma grows_sequence_step st : preserves grows (sequence_step st).
Proof.
  unfold sequence_step.
  apply preserves_bind; [apply _ .. | apply grows_resolve_step |]. intros [ins outs].
  apply preserves_bind; [apply _ .. | apply grows_execute |].
  intros _. apply grows_set_last_outputs.
Qed.

Lemma grows_sequence_loop steps : preserves grows (sequence_loop steps).
Proof.
  induction steps as [|st rest IH]; simpl.
  - apply preserves_ret; apply _.
  - apply preserves_bind; [apply _ .. | apply grows_sequence_step |]. intros _. apply IH.
Qed.

Lemma grows_branch_body merge st acc : preserves grows (branch_body merge st acc).
Proof.
  unfold branch_body. destruct acc as [W all_outputs].
  apply preserves_bind; [apply _ .. | apply grows_resolve_step |]. intros [ins outs].
  apply preserves_bind; [apply _ .. | |].
  { destruct (_ =? _)%string; [|apply preserves_ret; apply _].
    intros s. rewrite check_conflict_state. reflexivity. }
  intros _. apply preserves_bind; [apply _ .. | apply grows_execute |].
  intros _. apply preserves_bind; [apply _ .. | |].
  { intros s. rewrite mark_written_state. reflexivity. }
  intros W'. apply preserves_ret; apply _.
Qed.

Lemma grows_branch_loop merge branches acc : preserves grows (branch_loop merge branches acc).
Proof.
  revert acc. induction branches as [|st rest IH]; intros acc; simpl.
  - apply preserves_ret; apply _.
  - apply preserves_bind; [apply _ .. | apply grows_branch_body |]. intros acc'. apply IH.
Qed.

Lemma grows_run_expr e : preserves grows (run_expr e).
Proof.
  unfold run_expr.
  apply preserves_bind; [apply _ .. | apply grows_resolve_inputs |]. intros ins.
  apply preserves_bind; [apply _ .. | apply grows_execute |].
  intros _. apply grows_set_last_outputs.
Qed.

Lemma grows_select_loop ctx branches : preserves grows (select_loop ctx branches).
Proof.
  induction branches as [|b rest IH]; simpl.
  - apply preserves_ret; apply _.
  - destruct b as [e c|c|]; try (apply preserves_raise; apply _).
    apply preserves_bind; [apply _ .. | |].
    { intros s. apply only_logs_grows; [apply only_logs_eval_condition|].
      unfold eval_condition, mbind, M_bind, bind, modify, lift. simpl.
      by apply prefix_app_r. }
    intros [|]; [|apply IH].
    apply preserves_bind; [apply _ .. | apply grows_run_expr |].
    intros _. apply preserves_ret; apply _.
Qed.

Lemma grows_run m : preserves grows (run m).
Proof.
  destruct m as [a|a|args merge|args|branches default]; simpl.
  - apply grows_common.
  - apply grows_all.
  - unfold branch.
    apply preserves_bind; [apply _ .. | apply grows_collect_steps |]. intros brs.
    apply preserves_bind; [apply _ .. | apply grows_branch_loop |]. intros acc.
    apply grows_set_last_outputs.
  - unfold sequence.
    apply preserves_bind; [apply _ .. | apply grows_collect_steps |]. intros steps.
    apply grows_sequence_loop.
  - unfold select.
    apply preserves_bind; [apply _ .. | apply preserves_gets; apply _ |]. intros ctx.
    apply preserves_bind; [apply _ .. | apply grows_select_loop |]. intros [|].
    + apply preserves_ret; apply _.
    + destruct default; [apply preserves_ret; apply _ | apply grows_run_expr |
                         apply preserves_raise; apply _].
Qed.

(** ** The ALL token and the registry *)

Lemma lookup_placeholders_ok names s :
  (∀ n, n ∈ names → placeholders s !! n = Some (mkPlaceholder n)) →
  lookup_placeholders names s = (Ok (V <$> names), s).
Proof.
  induction names as [|n names IH]; intros H; [done|].
  simpl. unfold mbind, M_bind, bind, placeholders_get.
  rewrite (H n) by apply list_elem_of_here.
  unfold mbind, M_bind, bind in IH. rewrite IH; [done|].
  intros k Hk. apply H. by apply list_elem_of_further.
Qed.

Lemma enter_placeholders names (ps : gmap string Placeholder) n :
  n ∈ names ∨ ps !! n = Some (mkPlaceholder n) →
  foldl (λ ps n, <[n := mkPlaceholder n]> ps) ps names !! n = Some (mkPlaceholder n).
Proof.
  revert ps. induction names as [|k names IH]; intros ps [Hn|Hn]; simpl.
  - by apply elem_of_nil in Hn.
  - done.
  - apply IH. apply elem_of_cons in Hn as [->|Hn]; [right | by left].
    apply lookup_insert_eq.
  - apply IH. right. destruct (decide (k = n)) as [->|Hne].
    + apply lookup_insert_eq.
    + by rewrite lookup_insert_ne.
Qed.

(** X1: on a pipeline that has entered its [with] block, ALL resolves to
    the placeholders of the initial names, in the order of construction;
    on a pipeline that has not, and has at least one initial binding, it
    raises the KeyError of the first name. *)
Theorem resolve_all_initial (initial_data : list (string * value)) :
  let s := (__enter__ (__init__ initial_data)).2 in
  _resolve_inputs (Bare IAll) s = (Ok (V <$> initial_data.*1), s) ∧
  (∀ rest, _resolve_inputs (PyList (IAll :: rest)) s = (Ok (V <$> initial_data.*1), s)) ∧
  (∀ n v more, initial_data = (n, v) :: more →
     _resolve_inputs (Bare IAll) (__init__ initial_data)
       = (Raise (KeyError n), __init__ initial_data)).
Proof.
  intros s.
  assert (_resolve_inputs (Bare IAll) s = (Ok (V <$> initial_data.*1), s)) as E.
  { simpl. unfold resolve_all, mbind, M_bind, bind. simpl.
    apply (lookup_placeholders_ok (initial_data.*1) s).
    intros n Hn. simpl. apply enter_placeholders. by left. }
  split_and!; [done | done |].
  by intros n v more ->.
Qed.

Lemma resolve_all_initial_witness :
  _resolve_inputs (Bare IAll) pipe_ab = (Ok [V "a"; V "b"], pipe_ab) ∧
  _resolve_inputs (Bare IAll) (__init__ [("a", VInt 1); ("b", VInt 2)])
    = (Raise (KeyError "a"), __init__ [("a", VInt 1); ("b", VInt 2)]).
Proof.
  destruct (resolve_all_initial [("a", VInt 1); ("b", VInt 2)]) as (H1 & _ & H2).
  split; [exact H1 | by apply (H2 "a" (VInt 1) [("b", VInt 2)])].
Defined.

Lemma lookup_placeholders_weaken names s s' l :
  placeholders s ⊆ placeholders s' →
  (lookup_placeholders names s).1 = Ok l →
  lookup_placeholders names s' = (Ok l, s').
Proof.
  intros Hsub. revert l. induction names as [|n names IH]; intros l; simpl.
  - by intros [= <-].
  - unfold mbind, M_bind, bind, placeholders_get.
    destruct (placeholders s !! n) as [p|] eqn:E; [|done].
    rewrite (lookup_weaken _ _ _ _ E Hsub).
    unfold mbind, M_bind, bind in IH.
    destruct (lookup_placeholders names s) as [[ps|e] s1]; [|done].
    simpl. intros [= <-]. by rewrite (IH ps eq_refl).
Qed.

(** X2: once ALL resolves to a list, it resolves to the same list after
    any call of [common], [all], [branch], [sequence] or [select], whether
    the call returns or raises and whatever variables it has introduced. *)
Theorem resolve_all_stable (m : method) (s : DPP) (l : list item) :
  (_resolve_inputs (Bare IAll) s).1 = Ok l →
  _resolve_inputs (Bare IAll) (run m s).2 = (Ok l, (run m s).2).
Proof.
  intros H. destruct (grows_run m s) as [Hv _ _ Hp _].
  simpl in *. unfold resolve_all, mbind, M_bind, bind in *. simpl in *.
  rewrite Hv. by eapply lookup_placeholders_weaken.
Qed.

Lemma resolve_all_stable_witness :
  let m := MSequence [StepTriple (Bare (V "x")) double (Bare (V "y"));
                      StepTriple (Bare IPrev) triple (Bare (V "z"))] in
  _resolve_inputs (Bare IAll) (run m pipe_x).2 = (Ok [V "x"], (run m pipe_x).2).
Proof.
  intros m. apply (resolve_all_stable m pipe_x [V "x"]). reflexivity.
Defined.

(** X3: no call of [common], [all], [branch], [sequence] or [select],
    returning or raising, changes [var_names] or the mode, removes an
    entry of the context, or removes or replaces a placeholder. *)
Theorem run_never_removes (m : method) (s : DPP) :
  let s' := (run m s).2 in
  var_names s' = var_names s ∧
  in_context s' = in_context s ∧
  (∀ n, is_Some (context s !! n) → is_Some (context s' !! n)) ∧
  (∀ n p, placeholders s !! n = Some p → placeholders s' !! n = Some p).
Proof.
  destruct (grows_run m s) as [Hv Hi Hc Hp _]. split_and!; try done.
  - intros n Hn. by apply elem_of_dom, Hc, elem_of_dom.
  - intros n p Hn. by eapply lookup_weaken.
Qed.

Lemma run_never_removes_witness :
  let m := MSequence [StepTriple (Bare (V "a")) double (Bare (V "b"));
                      StepTriple (Bare (V "zz")) double (Bare (V "c"))] in
  let s' := (run m pipe_ab).2 in
  var_names s' = var_names pipe_ab ∧
  is_Some (context s' !! "b") ∧
  placeholders s' !! "a" = Some (mkPlaceholder "a").
Proof.
  intros m s'. destruct (run_never_removes m pipe_ab) as (Hv & _ & Hc & Hp).
  split_and!; [exact Hv | apply Hc; by eexists | by apply Hp].
Defined.

(** ** Relations kept by every method *)

Section run_preserves.
Context (R : relation DPP) `{!Reflexive R, !Transitive R}.
Hypothesis R_logs : ∀ s s', only_logs s s' → R s s'.
Hypothesis R_last : ∀ l s, R s (set_last_outputs l s).
Hypothesis R_write : ∀ ph v, preserves R (write_one ph v).

Lemma run_preserves_write_back pairs : preserves R (write_back pairs).
Proof.
  induction pairs as [|[ph v] rest IH]; simpl.
  - apply preserves_ret; apply _.
  - apply preserves_bind; [apply _ .. | apply R_write |]. intros _. apply IH.
Qed.

Lemma run_preserves_execute_map ins f outs : preserves R (_execute_map ins f outs).
Proof.
  unfold _execute_map.
  destruct (negb _); [apply preserves_raise; apply _|].
  apply preserves_bind; [apply _ .. | |].
  - eapply preserves_weaken; [apply R_logs | apply only_logs_map_calls].
  - intros rs. apply run_preserves_write_back.
Qed.

Lemma run_preserves_execute_all ins f outs : preserves R (_execute_all ins f outs).
Proof.
  unfold _execute_all.
  apply preserves_bind; [apply _ .. | |].
  { eapply preserves_weaken; [apply R_logs | apply only_logs_read_inputs]. }
  intros vs. apply preserves_bind; [apply _ .. | |].
  { eapply preserves_weaken; [apply R_logs | apply only_logs_call]. }
  intros r. apply preserves_bind; [apply _ .. | |].
  { eapply preserves_weaken; [apply R_logs | apply only_logs_unpack_result]. }
  intros rs. apply run_preserves_write_back.
Qed.

Lemma run_preserves_execute ins f outs : preserves R (execute ins f outs).
Proof.
  unfold execute.
  destruct (_ =? _); [apply run_preserves_execute_map | apply run_preserves_execute_all].
Qed.

Lemma run_preserves_single (strategy : list item → Callable → list item → M unit) bad a :
  (∀ ins f outs, preserves R (strategy ins f outs)) →
  preserves R ('(ins, f, outs) ← resolve_args bad a;
               strategy ins f outs;; modify (set_last_outputs outs)).
Proof.
  intros Hs. apply preserves_bind; [apply _ .. | |].
  { destruct a as [e|i f o|]; unfold resolve_args.
    - apply preserves_bind; [apply _ .. | |]; [|intros; apply preserves_ret; apply _].
      eapply preserves_weaken; [apply R_logs | apply only_logs_resolve_inputs].
    - apply preserves_bind; [apply _ .. | |]; [|intros; apply preserves_ret; apply _].
      eapply preserves_weaken; [apply R_logs | apply only_logs_resolve_inputs].
    - apply preserves_raise; apply _. }
  intros [[ins f] outs]. apply preserves_bind; [apply _ .. | apply Hs |].
  intros _ s. apply R_last.
Qed.

Lemma run_preserves_step ins f outs :
  preserves R (execute ins f outs;; modify (set_last_outputs outs)).
Proof.
  apply preserves_bind; [apply _ .. | apply run_preserves_execute |].
  intros _ s. apply R_last.
Qed.

Lemma run_preserves_sequence_loop steps : preserves R (sequence_loop steps).
Proof.
  induction steps as [|st rest IH]; simpl.
  - apply preserves_ret; apply _.
  - apply preserves_bind; [apply _ .. | | intros _; apply IH].
    unfold sequence_step. apply preserves_bind; [apply _ .. | |].
    { eapply preserves_weaken; [apply R_logs | apply only_logs_resolve_step]. }
    intros [ins outs]. apply run_preserves_step.
Qed.

Lemma run_preserves_branch_loop merge branches acc :
  preserves R (branch_loop merge branches acc).
Proof.
  revert acc. induction branches as [|st rest IH]; intros acc; simpl.
  - apply preserves_ret; apply _.
  - apply preserves_bind; [apply _ .. | | intros acc'; apply IH].
    unfold branch_body. destruct acc as [W all_outputs].
    apply preserves_bind; [apply _ .. | |].
    { eapply preserves_weaken; [apply R_logs | apply only_logs_resolve_step]. }
    intros [ins outs]. apply preserves_bind; [apply _ .. | |].
    { destruct (_ =? _)%string; [|apply preserves_ret; apply _].
      eapply preserves_weaken; [apply R_logs | apply only_logs_check_conflict]. }
    intros _. apply preserves_bind; [apply _ .. | apply run_preserves_execute |].
    intros _. apply preserves_bind; [apply _ .. | |].
    { eapply preserves_weaken; [apply R_logs | apply only_logs_mark_written]. }
    intros W'. apply preserves_ret; apply _.
Qed.

Lemma run_preserves_run_expr e : preserves R (run_expr e).
Proof.
  unfold run_expr. apply preserves_bind; [apply _ .. | |].
  { eapply preserves_weaken; [apply R_logs | apply only_logs_resolve_inputs]. }
  intros ins. apply run_preserves_step.
Qed.

Lemma run_preserves_select_loop ctx branches : preserves R (select_loop ctx branches).
Proof.
  induction branches as [|b rest IH]; simpl.
  - apply preserves_ret; apply _.
  - destruct b as [e c|c|]; try (apply preserves_raise; apply _).
    apply preserves_bind; [apply _ .. | |].
    { eapply preserves_weaken; [apply R_logs | apply only_logs_eval_condition]. }
    intros [|]; [|apply IH].
    apply preserves_bind; [apply _ .. | apply run_preserves_run_expr |].
    intros _. apply preserves_ret; apply _.
Qed.

Lemma run_preserves_collect bad args : preserves R (collect_steps bad args).
Proof.
  intros s. unfold collect_steps.
  destruct (forallb is_expr args); [reflexivity|].
  destruct (forallb is_triple args); reflexivity.
Qed.

Lemma run_preserves m : preserves R (run m).
Proof.
  destruct m as [a|a|args merge|args|branches default]; simpl.
  - apply run_preserves_single. apply run_preserves_execute_map.
  - apply run_preserves_single. apply run_preserves_execute_all.
  - unfold branch.
    apply preserves_bind; [apply _ .. | apply run_preserves_collect |]. intros brs.
    apply preserves_bind; [apply _ .. | apply run_preserves_branch_loop |].
    intros acc s. apply R_last.
  - unfold sequence.
    apply preserves_bind; [apply _ .. | apply run_preserves_collect |]. intros steps.
    apply run_preserves_sequence_loop.
  - unfold select.
    apply preserves_bind; [apply _ .. | apply preserves_gets; apply _ |]. intros ctx.
    apply preserves_bind; [apply _ .. | apply run_preserves_select_loop |]. intros [|].
    + apply preserves_ret; apply _.
    + destruct default; [apply preserves_ret; apply _ | apply run_preserves_run_expr |
                         apply preserves_raise; apply _].
Qed.
End run_preserves.

(** ** Placeholders are stored under their own name *)

#[global] Instance keeps_keyed_refl : Reflexive keeps_keyed.
Proof. by intros s H. Qed.

#[global] Instance keeps_keyed_trans : Transitive keeps_keyed.
Proof. intros s1 s2 s3 H1 H2 H. by apply H2, H1. Qed.

Lemma keeps_keyed_write_one ph v : preserves keeps_keyed (write_one ph v).
Proof.
  intros s Hk. destruct ph as [p| | | |]; try done.
  unfold write_one, mbind, M_bind, bind. simpl.
  destruct (placeholders s !! name p) eqn:E; simpl; [done|].
  intros k q. simpl. destruct (decide (name p = k)) as [<-|Hne].
  - rewrite lookup_insert_eq. by intros [= <-].
  - rewrite lookup_insert_ne by done. apply Hk.
Qed.

Lemma keeps_keyed_enter s : keyed s → keyed (__enter__ s).2.
Proof.
  intros Hk. unfold __enter__, mbind, M_bind, bind, modify. simpl.
  intros k p. simpl.
  assert (∀ names (ps : gmap string Placeholder),
            (∀ k p, ps !! k = Some p → name p = k) →
            ∀ k p, foldl (λ ps n, <[n := mkPlaceholder n]> ps) ps names !! k = Some p →
                   name p = k) as G.
  { induction names as [|n names IH]; intros ps Hps; [done|]. simpl.
    apply IH. intros k' p'. destruct (decide (n = k')) as [<-|Hne].
    - rewrite lookup_insert_eq. by intros [= <-].
    - rewrite lookup_insert_ne by done. apply Hps. }
  by apply G.
Qed.

Lemma keeps_keyed_getattr n s : keyed s → keyed (__getattr__ n s).2.
Proof.
  intros Hk. unfold __getattr__. destruct (is_reserved n); [done|].
  unfold mbind, M_bind, bind, gets. simpl.
  destruct (in_context s); simpl.
  - destruct (placeholders s !! n) eqn:E; simpl; [done|].
    intros k p. simpl. destruct (decide (n = k)) as [<-|Hne].
    + rewrite lookup_insert_eq. by intros [= <-].
    + rewrite lookup_insert_ne by done. apply Hk.
  - by destruct (context s !! n).
Qed.

Lemma keeps_keyed_init initial_data : keyed (__init__ initial_data).
Proof. intros k p. simpl. by rewrite lookup_empty. Qed.

Lemma keeps_keyed_run m s : keyed s → keyed (run m s).2.
Proof.
  apply (run_preserves keeps_keyed).
  - intros s1 s2 [l ->] H. exact H.
  - intros l s1 H. exact H.
  - apply keeps_keyed_write_one.
Qed.

(** X4: every placeholder the pipeline holds is stored under its own
    name: this is so at construction, and entering the [with] block,
    attribute access and every call of [common], [all], [branch],
    [sequence] or [select] keep it so. *)
Theorem placeholders_keyed :
  (∀ initial_data, keyed (__init__ initial_data)) ∧
  (∀ s, keyed s → keyed (__enter__ s).2) ∧
  (∀ s, keyed s → keyed (__exit__ s).2) ∧
  (∀ n s, keyed s → keyed (__getattr__ n s).2) ∧
  (∀ m s, keyed s → keyed (run m s).2).
Proof.
  split_and!.
  - apply keeps_keyed_init.
  - apply keeps_keyed_enter.
  - done.
  - apply keeps_keyed_getattr.
  - apply keeps_keyed_run.
Qed.

Lemma placeholders_keyed_witness :
  keyed (run (MCommon (ArgTriple (Bare (V "x")) double (Bare (V "y"))))
           (__getattr__ "y" (__enter__ (__init__ [("x", VInt 1)])).2).2).2.
Proof.
  destruct placeholders_keyed as (Hi & He & _ & Hg & Hr).
  apply Hr, Hg, He, Hi.
Defined.

Lemma lookup_placeholders_names names s l :
  keyed s → (lookup_placeholders names s).1 = Ok l → output_names l = names.
Proof.
  intros Hk. revert l. induction names as [|n names IH]; intros l; simpl.
  - by intros [= <-].
  - unfold mbind, M_bind, bind, placeholders_get.
    destruct (placeholders s !! n) as [p|] eqn:E; [|done].
    unfold mbind, M_bind, bind in IH.
    destruct (lookup_placeholders names s) as [[ps|e] s1]; [|done].
    simpl. intros [= <-]. unfold output_names in *. simpl.
    f_equal; [by apply Hk | by apply IH].
Qed.

(** X5: in a pipeline whose placeholders are stored under their own
    names, whenever ALL resolves, in bare form or at the head of a list,
    the names of the list it resolves to are exactly [var_names], in
    order. *)
Theorem resolve_all_names (s : DPP) (l : list item) :
  keyed s →
  (_resolve_inputs (Bare IAll) s).1 = Ok l ∨
  (∃ rest, (_resolve_inputs (PyList (IAll :: rest)) s).1 = Ok l) →
  output_names l = var_names s ∧ length l = length (var_names s).
Proof.
  intros Hk H.
  assert ((lookup_placeholders (var_names s) s).1 = Ok l) as E
    by (destruct H as [H|[rest H]]; exact H).
  pose proof (lookup_placeholders_names _ _ _ Hk E) as Hn. split; [done|].
  clear Hn Hk H. revert l E. generalize (var_names s) as names.
  induction names as [|n names IH]; intros l; simpl.
  - by intros [= <-].
  - unfold mbind, M_bind, bind, placeholders_get.
    destruct (placeholders s !! n) as [p|]; [|done].
    unfold mbind, M_bind, bind in IH.
    destruct (lookup_placeholders names s) as [[ps|e] s1]; [|done].
    simpl. intros [= <-]. simpl. f_equal. by apply IH.
Qed.

Lemma resolve_all_names_witness :
  let s := (common (ArgTriple (Bare (V "a")) double (Bare (V "c"))) pipe_ab).2 in
  output_names [V "a"; V "b"] = var_names s ∧ length [V "a"; V "b"] = length (var_names s).
Proof.
  intros s. apply (resolve_all_names s [V "a"; V "b"]).
  - apply (keeps_keyed_run (MCommon (ArgTriple (Bare (V "a")) double (Bare (V "c"))))).
    apply keeps_keyed_enter, keeps_keyed_init.
  - left. reflexivity.
Defined.

(** ** Attribute access *)

(** X6: inside the [with] block, reading an attribute whose name is not
    reserved hands back the placeholder stored under that name, creating
    and storing a new one when there is none; a second read returns the
    same placeholder and changes nothing.  The access never touches the
    context, [var_names] or the record of the last outputs, so a name
    declared this way is not a variable ALL would list. *)
Theorem getattr_inside_with (n : string) (s : DPP) :
  in_context s = true → is_reserved n = false →
  ∃ p s', __getattr__ n s = (Ok (AttrPlaceholder p), s') ∧
    placeholders s' !! n = Some p ∧
    (placeholders s !! n = None →
       p = mkPlaceholder n ∧ placeholders s' = <[n := p]> (placeholders s)) ∧
    (is_Some (placeholders s !! n) → s' = s) ∧
    context s' = context s ∧ var_names s' = var_names s ∧
    last_outputs s' = last_outputs s ∧
    __getattr__ n s' = (Ok (AttrPlaceholder p), s').
Proof.
  intros Hin Hres. unfold __getattr__. rewrite Hres.
  unfold mbind, M_bind, bind, gets. simpl. rewrite Hin. simpl.
  destruct (placeholders s !! n) as [p|] eqn:E; simpl.
  - exists p, s. rewrite Hin. simpl. rewrite E. split_and!; try done.
  - exists (mkPlaceholder n), (set_placeholders (<[n := mkPlaceholder n]> (placeholders s)) s).
    simpl. rewrite Hin. simpl. rewrite lookup_insert_eq.
    split_and!; done.
Qed.

Lemma getattr_inside_with_witness :
  ∃ p s', __getattr__ "y" pipe_x = (Ok (AttrPlaceholder p), s') ∧
    placeholders s' !! "y" = Some p ∧
    (placeholders pipe_x !! "y" = None →
       p = mkPlaceholder "y" ∧ placeholders s' = <["y" := p]> (placeholders pipe_x)) ∧
    (is_Some (placeholders pipe_x !! "y") → s' = pipe_x) ∧
    context s' = context pipe_x ∧ var_names s' = var_names pipe_x ∧
    last_outputs s' = last_outputs pipe_x ∧
    __getattr__ "y" s' = (Ok (AttrPlaceholder p), s').
Proof. apply (getattr_inside_with "y" pipe_x); reflexivity. Defined.

(** X7: a pipeline built on pairwise distinct names gives back, outside
    the [with] block, the value of every initial binding whose name is not
    reserved, before the block is entered as well as after it is left. *)
Theorem init_read_back (initial_data : list (string * value)) (n : string) (v : value) :
  NoDup initial_data.*1 → (n, v) ∈ initial_data → is_reserved n = false →
  __getattr__ n (__init__ initial_data) = (Ok (AttrValue v), __init__ initial_data) ∧
  (let s := (__exit__ (__enter__ (__init__ initial_data)).2).2 in
   __getattr__ n s = (Ok (AttrValue v), s)).
Proof.
  intros Hnd Hin Hres.
  pose proof (elem_of_list_to_map_1 (M := gmap string) initial_data n v Hnd Hin) as E.
  unfold __getattr__. rewrite Hres. unfold mbind, M_bind, bind, gets. simpl.
  by rewrite E.
Qed.

Lemma init_read_back_witness :
  __getattr__ "b" (__init__ [("a", VInt 1); ("b", VInt 2)])
    = (Ok (AttrValue (VInt 2)), __init__ [("a", VInt 1); ("b", VInt 2)]) ∧
  (let s := (__exit__ (__enter__ (__init__ [("a", VInt 1); ("b", VInt 2)])).2).2 in
   __getattr__ "b" s = (Ok (AttrValue (VInt 2)), s)).
Proof.
  apply (init_read_back [("a", VInt 1); ("b", VInt 2)] "b" (VInt 2)).
  - simpl. repeat constructor; set_solver.
  - apply list_elem_of_further, list_elem_of_here.
  - reflexivity.
Defined.

(** ** Failure of a single step *)

Lemma write_back_never_raises outs rs s :
  Forall is_placeholder outs → length rs = length outs →
  (write_back (zip outs rs) s).1 = Ok tt.
Proof.
  intros Ho Hl. by destruct (write_back_ok outs rs s Ho Hl) as (s' & -> & _).
Qed.

(** X8: with the debug trace off, a strategy whose outputs are all
    placeholders writes all of them or none: whenever it raises, the
    pipeline is as before up to the call log, so the context and the
    placeholders are untouched.  (The trace printed at the end of a
    strategy when the debug flag is set is not part of this embedding;
    with the flag off that code is not reached.) *)
Theorem execute_all_or_nothing (ins outs : list item) (f : Callable) (s : DPP) (e : exn) :
  debug_flag s = false →
  Forall is_placeholder outs →
  ((_execute_map ins f outs s).1 = Raise e →
     ∃ l, (_execute_map ins f outs s).2 = set_calls l s) ∧
  ((_execute_all ins f outs s).1 = Raise e →
     ∃ l, (_execute_all ins f outs s).2 = set_calls l s).
Proof.
  intros _ Ho. split.
  - unfold _execute_map. destruct (Nat.eqb_spec (length ins) (length outs)) as [El|_]; simpl.
    + unfold mbind, M_bind, bind.
      pose proof (only_logs_map_calls f ins s) as [l Hl].
      destruct (map_calls f ins s) as [[rs|e'] s1] eqn:E; simpl in *.
      * apply map_calls_length in E.
        rewrite write_back_never_raises; [done | done | congruence].
      * intros _. by exists l.
    + intros _. exists (calls s). by rewrite set_calls_id.
  - unfold _execute_all, mbind, M_bind, bind.
    pose proof (only_logs_read_inputs ins s) as [l1 H1].
    destruct (read_inputs ins s) as [[vs|e1] s1]; simpl in H1; subst s1;
      [|intros _; by exists l1].
    pose proof (only_logs_call f vs (set_calls l1 s)) as [l2 H2].
    destruct (call f vs (set_calls l1 s)) as [[r|e2] s2]; simpl in H2; subst s2;
      [|intros _; by exists l2].
    pose proof (only_logs_unpack_result r outs (set_calls l2 (set_calls l1 s))) as [l3 H3].
    destruct (unpack_result r outs _) as [[rs|e3] s3] eqn:E; simpl in H3; subst s3;
      [|intros _; by exists l3].
    apply unpack_result_length in E.
    by rewrite write_back_never_raises.
Qed.

Lemma execute_all_or_nothing_witness :
  (∃ l, (_execute_map [V "a"; V "zz"] double [V "c"; V "d"] pipe_ab).2 = set_calls l pipe_ab) ∧
  (∃ l, (_execute_all [V "a"; V "b"] sum_prod [V "c"; V "d"; V "e"] pipe_ab).2
          = set_calls l pipe_ab).
Proof.
  split.
  - apply (proj1 (execute_all_or_nothing [V "a"; V "zz"] [V "c"; V "d"] double pipe_ab
                    (KeyError "zz") eq_refl
                    ltac:(repeat constructor; eexists; reflexivity))).
    reflexivity.
  - apply (proj2 (execute_all_or_nothing [V "a"; V "b"] [V "c"; V "d"; V "e"] sum_prod pipe_ab
                    (ValueError ParameterNumberMismatch) eq_refl
                    ltac:(repeat constructor; eexists; reflexivity))).
    reflexivity.
Defined.

Lemma read_inputs_missing pre post p vs s :
  Forall2 (bound s) pre vs → context s !! name p = None →
  read_inputs (pre ++ IPh p :: post) s = (Raise (KeyError (name p)), s).
Proof.
  intros Hb Hp. induction Hb as [|inp v pre vs [q [-> Hq]] _ IH]; simpl.
  - unfold mbind, M_bind, bind, context_get. simpl. by rewrite Hp.
  - unfold mbind, M_bind, bind, context_get. simpl. rewrite Hq.
    unfold mbind, M_bind, bind in IH. by rewrite IH.
Qed.

Lemma map_calls_missing f pre post p vs rs :
  Forall2 (λ v r, fn_call f [v] = Ok r) vs rs →
  ∀ s, Forall2 (bound s) pre vs → context s !! name p = None →
  map_calls f (pre ++ IPh p :: post) s
  = (Raise (KeyError (name p)),
     set_calls (calls s ++ ((λ v, FnCall (fn_name f) [v]) <$> vs)) s).
Proof.
  intros Hf. revert pre. induction Hf as [|v r vs rs Hr Hf IH]; intros pre s Hb Hp.
  - inversion Hb; subst. simpl. unfold mbind, M_bind, bind, context_get. simpl.
    by rewrite Hp, app_nil_r, set_calls_id.
  - inversion Hb as [|inp ? pre' ? [q [-> Hq]] Hrest]; subst.
    simpl. unfold mbind, M_bind, bind, context_get, call, modify, lift. simpl.
    rewrite Hq. simpl. rewrite Hr. unfold mbind, M_bind, bind in IH.
    rewrite (IH pre' (log_event (FnCall (fn_name f) [v]) s) Hrest Hp).
    simpl. unfold set_calls. simpl. by rewrite <- app_assoc.
Qed.

(** X9: when the inputs before a placeholder are bound and that
    placeholder has no entry in the context, the whole-tuple strategy
    raises its KeyError without calling the function or changing anything,
    and the map strategy raises it after having called the function on
    the values of the inputs before it, without writing any result. *)
Theorem execute_missing_input (pre post outs : list item) (p : Placeholder)
    (f : Callable) (s : DPP) (vs rs : list value) :
  Forall2 (bound s) pre vs →
  context s !! name p = None →
  _execute_all (pre ++ IPh p :: post) f outs s = (Raise (KeyError (name p)), s) ∧
  (length (pre ++ IPh p :: post) = length outs →
   Forall2 (λ v r, fn_call f [v] = Ok r) vs rs →
   _execute_map (pre ++ IPh p :: post) f outs s
   = (Raise (KeyError (name p)),
      set_calls (calls s ++ ((λ v, FnCall (fn_name f) [v]) <$> vs)) s)).
Proof.
  intros Hb Hp. split.
  - unfold _execute_all. apply bind_raise. by apply (read_inputs_missing pre post p vs).
  - intros Hl Hf. unfold _execute_map. rewrite Hl, Nat.eqb_refl. simpl.
    apply bind_raise. by apply (map_calls_missing f pre post p vs rs).
Qed.

Lemma execute_missing_input_witness :
  _execute_all ([V "a"] ++ V "zz" :: [V "b"]) sum_prod [V "c"] pipe_ab
    = (Raise (KeyError "zz"), pipe_ab) ∧
  _execute_map ([V "a"] ++ V "zz" :: [V "b"]) double [V "c"; V "d"; V "e"] pipe_ab
    = (Raise (KeyError "zz"), set_calls (calls pipe_ab ++ [FnCall "double" [VInt 1]]) pipe_ab).
Proof.
  assert (Forall2 (bound pipe_ab) [V "a"] [VInt 1]) as Hb
    by (repeat constructor; eexists; (split; reflexivity)).
  split.
  - apply (proj1 (execute_missing_input [V "a"] [V "b"] [V "c"] (mkPlaceholder "zz")
                    sum_prod pipe_ab [VInt 1] [] Hb eq_refl)).
  - apply (proj2 (execute_missing_input [V "a"] [V "b"] [V "c"; V "d"; V "e"]
                    (mkPlaceholder "zz") double pipe_ab [VInt 1] [VInt 2] Hb eq_refl)).
    + reflexivity.
    + repeat constructor.
Defined.

(** ** Writing back onto the inputs *)







(** ** Composition of [sequence] *)

Lemma sequence_loop_app a b s :
  sequence_loop (a ++ b) s = (sequence_loop a ;; sequence_loop b) s.
Proof.
  revert s. induction a as [|st a IH]; intros s; [done|].
  simpl. unfold mbind, M_bind, bind.
  destruct (sequence_step st s) as [[[]|e] s1]; [|done].
  rewrite IH. done.
Qed.

Lemma sequence_triples steps s : sequence (triple_of <$> steps) s = sequence_loop steps s.
Proof. unfold sequence. erewrite bind_ok; [done | apply collect_steps_triples]. Qed.

(** X11: running the steps [a] followed by the steps [b] in one call of
    [sequence] is running [sequence] on [a] and then, if that returns,
    [sequence] on [b] from the pipeline it left; if a step of [a] raises,
    no step of [b] runs and the effects of the earlier steps stay. *)
Theorem sequence_app (a b : list step) (s : DPP) :
  sequence (triple_of <$> (a ++ b)) s
  = (sequence (triple_of <$> a) ;; sequence (triple_of <$> b)) s ∧
  (∀ e s1, sequence (triple_of <$> a) s = (Raise e, s1) →
     sequence (triple_of <$> (a ++ b)) s = (Raise e, s1)).
Proof.
  assert (sequence (triple_of <$> (a ++ b)) s
          = (sequence (triple_of <$> a) ;; sequence (triple_of <$> b)) s) as E.
  { rewrite sequence_triples, sequence_loop_app.
    unfold mbind, M_bind, bind. rewrite sequence_triples.
    destruct (sequence_loop a s) as [[[]|e] s1]; [|done]. by rewrite sequence_triples. }
  split; [done|]. intros e s1 Ha. rewrite E. by apply bind_raise.
Qed.

Lemma sequence_app_witness :
  let a : list step := [(Bare (V "zz"), double, Bare (V "c"))] in
  let b : list step := [(Bare (V "a"), double, Bare (V "d"))] in
  sequence (triple_of <$> (a ++ b)) pipe_ab = (Raise (KeyError "zz"), pipe_ab).
Proof.
  intros a b. apply (proj2 (sequence_app a b pipe_ab)). reflexivity.
Defined.

(** X12: when [sequence] returns, the record of the last outputs is the
    list of outputs the last step resolved to, in the pipeline left by
    the steps before it. *)
Theorem sequence_last_outputs (pre : list step) (st : step) (s s' : DPP) :
  sequence (triple_of <$> (pre ++ [st])) s = (Ok tt, s') →
  ∃ s1 ins outs,
    sequence (triple_of <$> pre) s = (Ok tt, s1) ∧
    resolve_step st s1 = (Ok (ins, outs), s1) ∧
    last_outputs s' = outs.
Proof.
  rewrite sequence_triples, sequence_loop_app.
  intros ([] & s1 & Hpre & Hst)%bind_inv_ok.
  simpl in Hst. apply bind_inv_ok in Hst as ([] & s2 & Hst & [= <-]).
  unfold sequence_step in Hst.
  apply bind_inv_ok in Hst as ([ins outs] & s3 & Hr & Hst).
  pose proof (resolve_step_state st s1) as Es. rewrite Hr in Es. simpl in Es. subst s3.
  apply bind_inv_ok in Hst as ([] & s3 & He & [= <-]).
  exists s1, ins, outs. by rewrite sequence_triples.
Qed.

Lemma sequence_last_outputs_witness :
  let pre : list step := [(Bare (V "a"), double, Bare (V "c"))] in
  let st : step := (PyList [V "a"; V "b"], sum_prod, PyList [V "u"]) in
  ∃ s1 ins outs,
    sequence (triple_of <$> pre) pipe_ab = (Ok tt, s1) ∧
    resolve_step st s1 = (Ok (ins, outs), s1) ∧
    last_outputs (sequence (triple_of <$> (pre ++ [st])) pipe_ab).2 = outs.
Proof.
  intros pre st.
  apply (sequence_last_outputs pre st pipe_ab
           (sequence (triple_of <$> (pre ++ [st])) pipe_ab).2).
  vm_compute. reflexivity.
Defined.

(** ** The record of the last outputs under [branch] *)

#[global] Instance same_last_refl : Reflexive same_last.
Proof. by intros s. Qed.

#[global] Instance same_last_trans : Transitive same_last.
Proof. intros s1 s2 s3 H1 H2. unfold same_last in *. congruence. Qed.

Lemma same_last_execute ins f outs : preserves same_last (execute ins f outs).
Proof. intros s. apply (frame_execute ins f outs s). Qed.

Lemma same_last_eq {A} (m : M A) : (∀ s, (m s).2 = s) → preserves same_last m.
Proof. intros H s. by rewrite H. Qed.

Lemma same_last_branch_body merge st acc : preserves same_last (branch_body merge st acc).
Proof.
  unfold branch_body. destruct acc as [W all_outputs].
  apply preserves_bind; [apply _ .. | apply same_last_eq, resolve_step_state |].
  intros [ins outs]. apply preserves_bind; [apply _ .. | |].
  { destruct (_ =? _)%string; [|apply preserves_ret; apply _].
    apply same_last_eq, check_conflict_state. }
  intros _. apply preserves_bind; [apply _ .. | apply same_last_execute |].
  intros _. apply preserves_bind; [apply _ .. | apply same_last_eq, mark_written_state |].
  intros W'. apply preserves_ret; apply _.
Qed.

Lemma same_last_branch_loop merge branches acc :
  preserves same_last (branch_loop merge branches acc).
Proof.
  revert acc. induction branches as [|st rest IH]; intros acc; simpl.
  - apply preserves_ret; apply _.
  - apply preserves_bind; [apply _ .. | apply same_last_branch_body |]. intros acc'. apply IH.
Qed.

(** X13: while the loop of [branch] runs, the record of the last outputs
    is the one [branch] was entered with: after any number of branches,
    under any policy, a branch whose input is PREV resolves, or fails to
    resolve, exactly as it would have at entry, and never sees the outputs
    of the branches before it. *)
Theorem branch_prev_from_entry (merge : string) (before : list step)
    (acc : gset string * list item) (s : DPP) (i o : arg) (g : Callable) (rest : list item) :
  _convert_to_placeholder_list i = IPrev :: rest →
  let s1 := (branch_loop merge before acc s).2 in
  last_outputs s1 = last_outputs s ∧
  (resolve_step (i, g, o) s1).1 = (resolve_step (i, g, o) s).1.
Proof.
  intros Hi s1.
  pose proof (same_last_branch_loop merge before acc s) as Hl. fold s1 in Hl.
  split; [exact Hl|].
  rewrite !(resolve_step_prev i o g rest _ Hi). simpl. by rewrite Hl.
Qed.

Lemma branch_prev_from_entry_witness :
  let before : list step := [(Bare (V "x"), double, Bare (V "y"))] in
  let s1 := (branch_loop "last" before (∅, []) pipe_x).2 in
  last_outputs s1 = last_outputs pipe_x ∧
  (resolve_step (Bare IPrev, triple, Bare (V "z")) s1).1
    = (resolve_step (Bare IPrev, triple, Bare (V "z")) pipe_x).1.
Proof.
  intros before s1.
  apply (branch_prev_from_entry "last" before (∅, []) pipe_x (Bare IPrev) (Bare (V "z"))
           triple []).
  reflexivity.
Defined.

Lemma resolve_step_explicit st s ins outs :
  explicit_outputs st → resolve_step st s = (Ok (ins, outs), s) →
  outs = _convert_to_placeholder_list st.2.
Proof.
  destruct st as [[i f] o]. intros Hex. unfold resolve_step.
  intros (ins' & s1 & _ & [= <- <-])%bind_inv_ok.
  unfold explicit_outputs in Hex. simpl in Hex.
  change ((i, f, o).2) with o.
  destruct (_convert_to_placeholder_list o) as [|hd tl]; [done|].
  destruct hd; try done. by destruct (Hex tl).
Qed.

Lemma branch_loop_outputs merge branches W acc s W' acc' s' :
  Forall explicit_outputs branches →
  branch_loop merge branches (W, acc) s = (Ok (W', acc'), s') →
  acc' = acc ++ (branches ≫= λ st, _convert_to_placeholder_list st.2).
Proof.
  intros Hex. revert W acc s. induction Hex as [|st rest Hst _ IH]; intros W acc s; simpl.
  - intros [= <- <-]. by rewrite app_nil_r.
  - intros ([W1 acc1] & s1 & Hb & Hl)%bind_inv_ok.
    apply IH in Hl as ->.
    unfold branch_body in Hb.
    apply bind_inv_ok in Hb as ([ins outs] & s2 & Hr & Hb).
    pose proof (resolve_step_state st s) as Es. rewrite Hr in Es. simpl in Es. subst s2.
    apply (resolve_step_explicit _ _ _ _ Hst) in Hr as ->.
    apply bind_inv_ok in Hb as ([] & s3 & _ & Hb).
    apply bind_inv_ok in Hb as ([] & s4 & _ & Hb).
    apply bind_inv_ok in Hb as (W2 & s5 & _ & [= _ <-]).
    by rewrite <- app_assoc.
Qed.

(** X14: when [branch] returns and no branch has ALL as its outputs, the
    record of the last outputs is the concatenation of the output lists of
    all the branches, in branch order; with no branch at all it is the
    empty list, whatever it was before. *)
Theorem branch_last_outputs (steps : list step) (merge : string) (s s' : DPP) :
  Forall explicit_outputs steps →
  branch (triple_of <$> steps) merge s = (Ok tt, s') →
  last_outputs s' = steps ≫= (λ st, _convert_to_placeholder_list st.2).
Proof.
  intros Hex. unfold branch.
  erewrite bind_ok; [|apply collect_steps_triples].
  intros ([W acc] & s1 & Hl & [= <-])%bind_inv_ok.
  by apply branch_loop_outputs in Hl as ->.
Qed.

Lemma branch_last_outputs_witness :
  let steps : list step := [(Bare (V "a"), double, PyList [V "c"]);
                            (PyTuple [V "a"; V "b"], sum_prod, PyTuple [V "u"])] in
  last_outputs (branch (triple_of <$> steps) "last" pipe_ab).2 = [V "c"; V "u"] ∧
  last_outputs (branch (triple_of <$> []) "last"
                  (branch (triple_of <$> steps) "last" pipe_ab).2).2 = [].
Proof.
  intros steps. split.
  - apply (branch_last_outputs steps "last" pipe_ab).
    + repeat constructor; intros rest; discriminate.
    + reflexivity.
  - apply (branch_last_outputs [] "last" (branch (triple_of <$> steps) "last" pipe_ab).2).
    + constructor.
    + reflexivity.
Defined.

(** ** Calling conventions *)

Lemma forallb_false_elem {A} (f : A → bool) (l : list A) x :
  x ∈ l → f x = false → forallb f l = false.
Proof.
  induction 1 as [x l|x y l _ IH]; intros Hf; simpl.
  - by rewrite Hf.
  - rewrite IH by done. apply andb_false_r.
Qed.

(** X15: [sequence] and [branch] validate all their arguments before
    running any step: when an argument is neither an expression nor a
    triple, or when expressions and triples are mixed, they raise their
    argument error and the pipeline is left exactly as it was. *)
Theorem mixed_arguments_rejected (args : list step_arg) (merge : string) (s : DPP) :
  StepOther ∈ args ∨
  (∃ e i f o, StepExpr e ∈ args ∧ StepTriple i f o ∈ args) →
  sequence args s = (Raise (ValueError BadSequenceArgs), s) ∧
  branch args merge s = (Raise (ValueError BadBranchArgs), s).
Proof.
  intros H.
  assert (forallb is_expr args = false ∧ forallb is_triple args = false) as [E1 E2].
  { destruct H as [H | (e & i & f & o & He & Ht)].
    - split; by apply (forallb_false_elem _ _ StepOther).
    - split; [by apply (forallb_false_elem _ _ (StepTriple i f o))
             | by apply (forallb_false_elem _ _ (StepExpr e))]. }
  unfold sequence, branch, collect_steps. by rewrite E1, E2.
Qed.

Lemma mixed_arguments_rejected_witness :
  let args := [StepTriple (Bare (V "x")) double (Bare (V "y"));
               StepExpr (mkExpr [V "x"] triple [V "z"])] in
  sequence args pipe_x = (Raise (ValueError BadSequenceArgs), pipe_x) ∧
  branch args "last" pipe_x = (Raise (ValueError BadBranchArgs), pipe_x).
Proof.
  intros args. apply (mixed_arguments_rejected args "last" pipe_x).
  right. exists (mkExpr [V "x"] triple [V "z"]), (Bare (V "x")), double, (Bare (V "y")).
  split; [apply list_elem_of_further, list_elem_of_here | apply list_elem_of_here].
Defined.

Lemma collect_steps_exprs bad (es : list CompleteExpression) s :
  collect_steps bad (StepExpr <$> es) s
  = (Ok ((λ e, (PyList (inputs e), fn e, PyList (outputs e))) <$> es), s).
Proof.
  assert (forallb is_expr (StepExpr <$> es) = true) as E by (by induction es).
  assert ((StepExpr <$> es) ≫= as_step
          = ((λ e, (PyList (inputs e), fn e, PyList (outputs e))) <$> es : list step)) as E'.
  { clear. induction es as [|e es IH]; [done|]. simpl. f_equal. exact IH. }
  unfold collect_steps. by rewrite E, E'.
Qed.

(** X16: an expression built with [>>] from lists and the triple of the
    same inputs, function and outputs are interchangeable: [common] and
    [all] give the same outcome on either, and so do [sequence] and
    [branch] on a list of expressions and on the list of their triples;
    the same holds for an expression built from a single placeholder and
    a single output. *)
Theorem expression_syntax_agrees :
  (∀ xs f ys s,
     let e := PartialExpression_rshift (PlaceholderList_rshift xs f) (V_list ys) in
     common (ArgExpr e) s = common (ArgTriple (V_list xs) f (V_list ys)) s ∧
     all (ArgExpr e) s = all (ArgTriple (V_list xs) f (V_list ys)) s) ∧
  (∀ x f y pe s,
     Placeholder_rshift x (OpCallable f) = Some pe →
     let e := PartialExpression_rshift pe (Bare y) in
     common (ArgExpr e) s = common (ArgTriple (Bare (IPh x)) f (Bare y)) s ∧
     all (ArgExpr e) s = all (ArgTriple (Bare (IPh x)) f (Bare y)) s) ∧
  (∀ es merge s,
     let triples := (λ e, StepTriple (PyList (inputs e)) (fn e) (PyList (outputs e))) <$> es in
     sequence (StepExpr <$> es) s = sequence triples s ∧
     branch (StepExpr <$> es) merge s = branch triples merge s).
Proof.
  split_and!.
  - done.
  - intros x f y pe s [= <-]. done.
  - intros es merge s triples.
    assert (∀ bad, collect_steps bad (StepExpr <$> es) s = collect_steps bad triples s) as E.
    { intros bad. rewrite collect_steps_exprs.
      replace triples
        with (triple_of <$> ((λ e, (PyList (inputs e), fn e, PyList (outputs e))) <$> es)).
      - by rewrite collect_steps_triples.
      - unfold triples. rewrite <- list_fmap_compose. done. }
    unfold sequence, branch, mbind, M_bind, bind. by rewrite !E.
Qed.

Lemma expression_syntax_agrees_witness :
  let e := PartialExpression_rshift (mkPartial [V "x"] double) (Bare (V "y")) in
  common (ArgExpr e) pipe_x = common (ArgTriple (Bare (V "x")) double (Bare (V "y"))) pipe_x.
Proof.
  intros e.
  destruct expression_syntax_agrees as (_ & H & _).
  apply (H (mkPlaceholder "x") double (V "y") (mkPartial [V "x"] double) pipe_x eq_refl).
Defined.

(** X17: on the right of [>>] a tuple of outputs is not spread: it becomes
    the single output of the expression.  [common] on such an expression,
    with one bound input on which the function returns, calls the function
    and then raises the attribute error without writing anything, whereas
    the triple form with the same tuple of two or more placeholders raises
    the parameter-number error without calling the function. *)
Theorem rshift_tuple_is_one_output (x : Placeholder) (f : Callable) (t : list item)
    (s : DPP) (v r : value) :
  context s !! name x = Some v →
  fn_call f [v] = Ok r →
  let e := PartialExpression_rshift (PlaceholderList_rshift [IPh x] f) (PyTuple t) in
  length (outputs e) = 1 ∧
  common (ArgExpr e) s
    = (Raise (AttributeError HasNoName), set_calls (calls s ++ [FnCall (fn_name f) [v]]) s) ∧
  (Forall is_placeholder t → 1 < length t →
     common (ArgTriple (PyList [IPh x]) f (PyTuple t)) s
       = (Raise (ValueError ParameterNumberMismatch), s)).
Proof.
  intros Hv Hr e. split_and!.
  - done.
  - unfold common, resolve_args, _execute_map, mbind, M_bind, bind. simpl.
    unfold mbind, M_bind, bind, context_get, call, modify, lift,
      mbind, M_bind, bind. simpl.
    rewrite Hv. simpl. by rewrite Hr.
  - intros Ht Hl. unfold common, resolve_args, mbind, M_bind, bind. simpl.
    assert (_resolve_outputs t [IPh x] = t) as ->.
    { destruct Ht as [|[] ? [? ?] _]; done. }
    unfold _execute_map. simpl.
    destruct t as [|a [|b t]]; simpl in *; try lia. done.
Qed.

Lemma rshift_tuple_is_one_output_witness :
  let e := PartialExpression_rshift (PlaceholderList_rshift [V "x"] double)
             (PyTuple [V "y"; V "z"]) in
  common (ArgExpr e) pipe_x
    = (Raise (AttributeError HasNoName),
       set_calls (calls pipe_x ++ [FnCall "double" [VInt 1]]) pipe_x) ∧
  common (ArgTriple (PyList [V "x"]) double (PyTuple [V "y"; V "z"])) pipe_x
    = (Raise (ValueError ParameterNumberMismatch), pipe_x).
Proof.
  intros e.
  destruct (rshift_tuple_is_one_output (mkPlaceholder "x") double [V "y"; V "z"] pipe_x
              (VInt 1) (VInt 2) eq_refl eq_refl) as (_ & H1 & H2).
  split; [exact H1|]. apply H2.
  - repeat constructor; eexists; reflexivity.
  - simpl. lia.
Defined.

(** ** The default of [select] *)



(** ** Merge policies *)

Lemma mark_written_as_last merge W outs s :
  mark_written merge W outs s = mark_written "last" W outs s.
Proof.
  destruct (String.eqb_spec merge "first") as [->|Hne].
  { apply mark_written_first_last. }
  apply String.eqb_neq in Hne.
  revert W. induction outs as [|o outs IH]; intros W; [done|].
  simpl. destruct o as [p| | | |]; try done.
  unfold mbind, M_bind, bind. simpl. rewrite Hne. simpl. apply IH.
Qed.

(** X19: the policy is compared with the names "error" and "first"
    only: every other string, known or not, is accepted without complaint,
    and every policy other than "error" gives on every input exactly the
    outcome of "last". *)
Theorem branch_policy_as_last (args : list step_arg) (merge : string) (s : DPP) :
  merge ≠ "error" → branch args merge s = branch args "last" s.
Proof.
  intros Hne%String.eqb_neq.
  unfold branch, mbind, M_bind, bind.
  destruct (collect_steps BadBranchArgs args s) as [[branches|e] s1]; [|done].
  assert (∀ acc s, branch_loop merge branches acc s = branch_loop "last" branches acc s)
    as ->; [|done].
  clear s s1. induction branches as [|st rest IH]; intros acc s; [done|].
  simpl. unfold mbind, M_bind, bind.
  assert (branch_body merge st acc s = branch_body "last" st acc s) as ->.
  { unfold branch_body. destruct acc as [W all_outputs]. unfold mbind, M_bind, bind.
    destruct (resolve_step st s) as [[[ins outs]|e] s2]; [|done]. rewrite Hne. simpl.
    destruct (execute ins st.1.2 outs s2) as [[[]|e] s3]; [|done].
    by rewrite mark_written_as_last. }
  destruct (branch_body "last" st acc s) as [[acc'|e] s2]; [apply IH | done].
Qed.

Lemma branch_policy_as_last_witness :
  let args := [StepTriple (Bare (V "x")) double (Bare (V "y"));
               StepTriple (Bare (V "x")) triple (Bare (V "y"))] in
  branch args "keep-first" pipe_x = branch args "last" pipe_x.
Proof.
  intros args. apply (branch_policy_as_last args "keep-first" pipe_x). discriminate.
Defined.

(** X20: the policy "error" only adds failures: whenever [branch]
    returns under it, the policy "last" returns on the same arguments
    and leaves the same pipeline. *)
Theorem branch_error_refines_last (args : list step_arg) (s s' : DPP) :
  branch args "error" s = (Ok tt, s') → branch args "last" s = (Ok tt, s').
Proof.
  unfold branch.
  intros (branches & s1 & Hc & H)%bind_inv_ok.
  erewrite bind_ok; [|exact Hc].
  apply bind_inv_ok in H as (acc & s2 & Hl & H).
  erewrite bind_ok; [exact H|].
  clear Hc H. revert Hl. generalize (∅ : gset string, [] : list item) as acc0.
  revert s1. induction branches as [|st rest IH]; intros s1 acc0; [done|].
  simpl. intros (acc1 & s3 & Hb & Hl)%bind_inv_ok.
  erewrite bind_ok; [by apply IH|].
  clear IH Hl. revert Hb. unfold branch_body. destruct acc0 as [W all_outputs].
  intros ([ins outs] & s4 & Hr & Hb)%bind_inv_ok.
  erewrite bind_ok; [|exact Hr].
  apply bind_inv_ok in Hb as ([] & s5 & Hcheck & Hb).
  simpl in Hcheck.
  pose proof (check_conflict_state W outs s4) as Es. rewrite Hcheck in Es. simpl in Es.
  subst s5. simpl.
  apply bind_inv_ok in Hb as ([] & s6 & He & Hb).
  unfold mbind at 1. unfold M_bind at 1. unfold bind at 1. unfold mret at 1. unfold M_ret at 1.
  unfold ret at 1.
  erewrite bind_ok; [|exact He].
  apply bind_inv_ok in Hb as (W' & s7 & Hm & Hb).
  rewrite mark_written_as_last in Hm.
  erewrite bind_ok; [exact Hb | exact Hm].
Qed.

Lemma branch_error_refines_last_witness :
  let args := [StepTriple (Bare (V "a")) double (Bare (V "c"));
               StepTriple (Bare (V "b")) triple (Bare (V "d"))] in
  branch args "last" pipe_ab = (Ok tt, (branch args "error" pipe_ab).2).
Proof.
  intros args. apply (branch_error_refines_last args pipe_ab). vm_compute. reflexivity.
Defined.

(** ** The Ellipsis guard *)

Lemma lookup_placeholders_raises names s e :
  (lookup_placeholders names s).1 = Raise e → ∃ k, e = KeyError k.
Proof.
  induction names as [|n names IH]; [done|].
  simpl. unfold mbind, M_bind, bind, placeholders_get.
  destruct (placeholders s !! n); [|intros [= <-]; eauto].
  unfold mbind, M_bind, bind in IH.
  destruct (lookup_placeholders names s) as [[ps|e'] s1]; [done|].
  simpl in *. intros [= <-]. by apply IH.
Qed.

(** X21: the not-implemented error guards a bare Ellipsis only.  No list
    of inputs makes the resolver raise it, so it cannot come out of the
    resolution of an (inputs, fn, outputs) triple; an Ellipsis passed as
    the inputs of such a triple is wrapped in a list, goes through
    resolution, and [common] then raises the attribute error before
    calling the function. *)
Theorem ellipsis_guard_bare_only :
  (∀ s, _resolve_inputs (Bare IDots) s = (Raise NotImplementedError, s)) ∧
  (∀ l s, (_resolve_inputs (PyList l) s).1 ≠ Raise NotImplementedError) ∧
  (∀ st s, (resolve_step st s).1 ≠ Raise NotImplementedError) ∧
  (∀ f o s, common (ArgTriple (Bare IDots) f (Bare (IPh o))) s
            = (Raise (AttributeError HasNoName), s)).
Proof.
  assert (∀ l s, (_resolve_inputs (PyList l) s).1 ≠ Raise NotImplementedError) as H.
  { intros l s. destruct l as [|[] l]; try done.
    - simpl. unfold resolve_all, mbind, M_bind, bind. simpl.
      intros [k Hk]%lookup_placeholders_raises. done.
    - simpl. rewrite resolve_prev_spec. by destruct (last_outputs s). }
  split_and!; [intros; reflexivity | exact H | | intros; reflexivity].
  intros [[i f] o] s. unfold resolve_step, mbind, M_bind, bind.
  specialize (H (_convert_to_placeholder_list i) s).
  destruct (_resolve_inputs _ s) as [[ins|e] s1]; simpl in *; [done|].
  intros [= ->]. by apply H.
Qed.

Lemma ellipsis_guard_bare_only_witness :
  (resolve_step (Bare IDots, double, Bare (V "y")) pipe_x).1 = Ok ([IDots], [V "y"]) ∧
  common (ArgTriple (Bare IDots) double (Bare (V "y"))) pipe_x
    = (Raise (AttributeError HasNoName), pipe_x).
Proof.
  split; [reflexivity|].
  destruct ellipsis_guard_bare_only as (_ & _ & _ & H). apply H.
Defined.

(** ** The record of the last outputs when a call fails *)

Lemma select_loop_same_last ctx branches s :
  (select_loop ctx branches s).1 ≠ Ok true →
  same_last s (select_loop ctx branches s).2.
Proof.
  revert s. induction branches as [|b rest IH]; intros s; [done|].
  destruct b as [e c|c|]; try done.
  simpl. unfold mbind, M_bind, bind.
  pose proof (only_logs_eval_condition c ctx s) as [l Hl].
  destruct (eval_condition c ctx s) as [[[|]|err] s1]; simpl in Hl; subst s1.
  - unfold run_expr, mbind, M_bind, bind.
    pose proof (resolve_inputs_state (PyList (inputs e)) (set_calls l s)) as Es.
    destruct (_resolve_inputs _ (set_calls l s)) as [[ins|err] s1];
      simpl in Es; subst s1; [|done].
    pose proof (same_last_execute ins (fn e) (_resolve_outputs (outputs e) ins)
                  (set_calls l s)) as He.
    by destruct (execute ins (fn e) _ (set_calls l s)) as [[[]|err] s1].
  - intros H. by apply (IH (set_calls l s)) in H.
  - done.
Qed.

Lemma run_expr_raise_same_last e s err :
  (run_expr e s).1 = Raise err → same_last s (run_expr e s).2.
Proof.
  unfold run_expr, mbind, M_bind, bind.
  pose proof (resolve_inputs_state (PyList (inputs e)) s) as Es.
  destruct (_resolve_inputs _ s) as [[ins|err'] s1]; simpl in Es; subst s1; [|done].
  pose proof (same_last_execute ins (fn e) (_resolve_outputs (outputs e) ins) s) as He.
  by destruct (execute ins (fn e) _ s) as [[[]|err'] s1].
Qed.

Lemma resolve_args_state bad a s : (resolve_args bad a s).2 = s.
Proof.
  destruct a as [e|i f o|]; unfold resolve_args, mbind, M_bind, bind; [| |done].
  - pose proof (resolve_inputs_state (PyList (inputs e)) s) as Es.
    by destruct (_resolve_inputs _ s) as [[ins|err] s1].
  - pose proof (resolve_inputs_state (PyList (_convert_to_placeholder_list i)) s) as Es.
    by destruct (_resolve_inputs _ s) as [[ins|err] s1].
Qed.

(** X22: [common], [all], [branch] and [select] set the record of the
    last outputs only as their last act: whenever one of them raises, the
    record is the one the call started with, even though the context may
    already hold results of the call. *)
Theorem failure_keeps_last_outputs (m : method) (s : DPP) (e : exn) :
  (∀ args, m ≠ MSequence args) →
  (run m s).1 = Raise e →
  last_outputs (run m s).2 = last_outputs s.
Proof.
  intros Hm. destruct m as [a|a|args merge|args|branches default]; simpl.
  - unfold common, mbind, M_bind, bind.
    pose proof (resolve_args_state BadCommonArgs a s) as Es.
    destruct (resolve_args BadCommonArgs a s) as [[[[ins f] outs]|err] s1];
      simpl in Es; subst s1; [|done].
    pose proof (frame_execute_map ins f outs s) as [_ Hl _ _ _ _ _].
    by destruct (_execute_map ins f outs s) as [[[]|err] s1].
  - unfold all, mbind, M_bind, bind.
    pose proof (resolve_args_state BadAllArgs a s) as Es.
    destruct (resolve_args BadAllArgs a s) as [[[[ins f] outs]|err] s1];
      simpl in Es; subst s1; [|done].
    pose proof (frame_execute_all ins f outs s) as [_ Hl _ _ _ _ _].
    by destruct (_execute_all ins f outs s) as [[[]|err] s1].
  - unfold branch, mbind, M_bind, bind.
    assert ((collect_steps BadBranchArgs args s).2 = s) as Es.
    { unfold collect_steps. by repeat destruct (forallb _ _). }
    destruct (collect_steps BadBranchArgs args s) as [[brs|err] s1];
      simpl in Es; subst s1; [|done].
    pose proof (same_last_branch_loop merge brs (∅, []) s) as Hl.
    by destruct (branch_loop merge brs (∅, []) s) as [[acc|err] s1].
  - by destruct (Hm args).
  - unfold select, mbind, M_bind, bind. simpl.
    pose proof (select_loop_same_last (context s) branches s) as Hl.
    destruct (select_loop (context s) branches s) as [[[|]|err] s1]; simpl in *.
    + done.
    + specialize (Hl ltac:(done)). destruct default as [|d|]; [done | | by intros _].
      intros Hr. pose proof (run_expr_raise_same_last d s1 e Hr) as Hd.
      unfold same_last in *. congruence.
    + intros _. by apply Hl.
Qed.

Lemma failure_keeps_last_outputs_witness :
  let s := (common (ArgTriple (Bare (V "a")) double (Bare (V "c"))) pipe_ab).2 in
  let m := MBranch [StepTriple (Bare (V "a")) double (Bare (V "d"));
                    StepTriple (Bare (V "zz")) double (Bare (V "e"))] "last" in
  last_outputs (run m s).2 = last_outputs s.
Proof.
  intros s m. apply (failure_keeps_last_outputs m s (KeyError "zz")).
  - discriminate.
  - reflexivity.
Defined.

(** ** One step through [sequence] *)

(** X23: [sequence] on a single triple is [common] on that triple when
    its specification resolves to as many outputs as inputs, and [all] on
    it otherwise: through [sequence] the strategy is fixed by the two
    counts alone. *)
Theorem sequence_single_step (i o : arg) (f : Callable) (s : DPP) (ins outs : list item) :
  (resolve_step (i, f, o) s).1 = Ok (ins, outs) →
  sequence [StepTriple i f o] s
  = if (length ins =? length outs)
    then common (ArgTriple i f o) s
    else all (ArgTriple i f o) s.
Proof.
  intros Hr%resolve_step_ok.
  change [StepTriple i f o] with (triple_of <$> [(i, f, o)]).
  rewrite sequence_triples. simpl.
  assert (∀ bad, resolve_args bad (ArgTriple i f o) s = (Ok (ins, f, outs), s)) as Ha.
  { intros bad. revert Hr. unfold resolve_step, resolve_args, mbind, M_bind, bind.
    destruct (_resolve_inputs _ s) as [[ins'|err] s1]; [|done].
    by intros [= -> -> ->]. }
  unfold sequence_step, common, all, mbind, M_bind, bind.
  rewrite Hr, !Ha. simpl. unfold execute.
  destruct (length ins =? length outs).
  - by destruct (_execute_map ins f outs s) as [[[]|err] s1].
  - by destruct (_execute_all ins f outs s) as [[[]|err] s1].
Qed.

Lemma sequence_single_step_witness :
  sequence [StepTriple (PyList [V "a"; V "b"]) sum_prod (PyList [V "u"; V "w"])] pipe_ab
  = common (ArgTriple (PyList [V "a"; V "b"]) sum_prod (PyList [V "u"; V "w"])) pipe_ab.
Proof.
  apply (sequence_single_step (PyList [V "a"; V "b"]) (PyList [V "u"; V "w"]) sum_prod
           pipe_ab [V "a"; V "b"] [V "u"; V "w"]).
  reflexivity.
Defined.
